(** * ArchSync consensus engine: [src/lib/clustering.ts]

    A shallow embedding of the clustering module (cosine similarity,
    threshold clustering, consensus score) and of the ADR status rule of
    [src/app/api/adr/generate/route.ts], with the properties the
    specification states about them.

    JavaScript numbers are kept behind a small interface, [Num], so that the
    same translated code can be run on IEEE-754 binary64 values ([Fnum]) and
    reasoned about in exact real arithmetic ([Rnum]).  Properties that only
    depend on the control flow of the code are proved for every [Num]. *)

From Stdlib Require Import Reals Lra Lia ZArith.
From Stdlib Require Floats Uint63.
From stdpp Require Import base option list strings relations sorting pretty.

(** ** Numbers *)

(** The operations on [number] that the two source files use: integer
    literals and array lengths ([of_Z]), [+], [*], [/], [Math.sqrt], [===],
    [<] and [<=] ([a > b] is [nltb b a], [a >= b] is [nleb b a]). *)
Record Num : Type := {
  num : Type;
  of_Z : Z → num;
  nadd : num → num → num;
  nmul : num → num → num;
  ndiv : num → num → num;
  nsqrt : num → num;
  neqb : num → num → bool;
  nltb : num → num → bool;
  nleb : num → num → bool;
}.

Definition float_of_Z (z : Z) : PrimFloat.float :=
  if (z <? 0)%Z
  then PrimFloat.opp (PrimFloat.of_uint63 (Uint63.of_Z (- z)))
  else PrimFloat.of_uint63 (Uint63.of_Z z).

(** IEEE-754 binary64, the representation of a JavaScript [number]. *)
Definition Fnum : Num := {|
  num := PrimFloat.float;
  of_Z := float_of_Z;
  nadd := PrimFloat.add;
  nmul := PrimFloat.mul;
  ndiv := PrimFloat.div;
  nsqrt := PrimFloat.sqrt;
  neqb := PrimFloat.eqb;
  nltb := PrimFloat.ltb;
  nleb := PrimFloat.leb;
|}.

(** Exact real arithmetic: the numbers the binary64 values stand for. *)
Definition Rnum : Num := {|
  num := R;
  of_Z := IZR;
  nadd := Rplus;
  nmul := Rmult;
  ndiv := Rdiv;
  nsqrt := R_sqrt.sqrt;
  neqb := λ a b, if Req_dec_T a b then true else false;
  nltb := λ a b, if Rlt_dec a b then true else false;
  nleb := λ a b, if Rle_dec a b then true else false;
|}.

(** ** Exceptions *)

(** [JsError msg] is [throw new Error(msg)]; [TypeError] is what reading a
    property of [null] or [undefined] raises. *)
Inductive exn : Type :=
  | JsError (msg : string)
  | TypeError.

Inductive result (A : Type) : Type :=
  | Ok (a : A)
  | Throw (e : exn).
Arguments Ok {A} a.
Arguments Throw {A} e.

Definition rbind {A B} (m : result A) (k : A → result B) : result B :=
  match m with
  | Ok a => k a
  | Throw e => Throw e
  end.

Notation "x ←ᵣ m ; k" := (rbind m (λ x, k))
  (at level 20, m at level 100, k at level 200, right associativity,
   format "x  ←ᵣ  m ;  '/' k").


(** A loop whose body may throw: the first exception leaves the loop. *)
Fixpoint foldM {A B} (body : B → A → result B) (xs : list A) (acc : B) : result B :=
  match xs with
  | [] => Ok acc
  | x :: xs' => acc' ←ᵣ body acc x; foldM body xs' acc'
  end.

(** [arr[i]] followed by a property access: [undefined.prop] throws. *)
Definition at_index {A} (arr : list A) (i : nat) : result A :=
  match arr !! i with
  | Some a => Ok a
  | None => Throw TypeError
  end.

Section Clustering.
Context {N : Num}.

Local Abbreviation number := (num N).
Local Abbreviation zero := (of_Z N 0).
Local Infix "+." := (nadd N) (at level 50, left associativity).
Local Infix "*." := (nmul N) (at level 40, left associativity).
Local Infix "/." := (ndiv N) (at level 40, left associativity).
Local Infix "===." := (neqb N) (at level 70, no associativity).
Local Infix "<." := (nltb N) (at level 70, no associativity).
Local Infix "<=." := (nleb N) (at level 70, no associativity).

Definition of_nat (n : nat) : number := of_Z N (Z.of_nat n).

(** ** Data model ([src/lib/db-types.ts], [src/lib/clustering.ts]) *)

Record Understanding : Type := {
  id : string;
  project_id : string;
  developer_name : string;
  change_description : option string;
  module_name : string;
  understanding_text : string;
  confidence_score : option number;
  embedding : option (list number);
  created_at : string;
}.

(** [cluster_id] is the field [id] of the interface [Cluster]. *)
Record Cluster : Type := {
  cluster_id : nat;
  understandings : list Understanding;
  representative_text : string;
  size : nat;
  percentage : number;
}.

(** ** [cosineSimilarity] *)

Definition cosineStep (acc : number * number * number) (ab : number * number)
  : number * number * number :=
  let '(dotProduct, magnitudeA, magnitudeB) := acc in
  let '(a, b) := ab in
  (dotProduct +. a *. b, magnitudeA +. a *. a, magnitudeB +. b *. b).

Definition cosineSimilarity (vecA vecB : list number) : result number :=
  if negb (length vecA =? length vecB)
  then Throw (JsError "Vectors must have the same length")
  else
    let '(dotProduct, magnitudeA, magnitudeB) :=
      fold_left cosineStep (zip vecA vecB) (zero, zero, zero) in
    let magnitudeA := nsqrt N magnitudeA in
    let magnitudeB := nsqrt N magnitudeB in
    if (magnitudeA ===. zero) || (magnitudeB ===. zero)
    then Ok zero
    else Ok (dotProduct /. (magnitudeA *. magnitudeB)).

(** ** [clusterUnderstandings] *)

(** The literal [0.75], which is 3/4 exactly, in binary64 too. *)
Definition SIMILARITY_THRESHOLD : number := of_Z N 3 /. of_Z N 4.

(** [u.embedding && u.embedding.length > 0]: [null] is falsy, an array is
    truthy whatever it holds. *)
Definition hasEmbedding (u : Understanding) : bool :=
  match embedding u with
  | Some e => 0 <? length e
  | None => false
  end.

(** [u.embedding!]: the assertion is erased at run time, and [null.length]
    throws. *)
Definition embeddingOf (u : Understanding) : result (list number) :=
  match embedding u with
  | Some e => Ok e
  | None => Throw TypeError
  end.

(** [cluster.some(u => u.id === target)] *)
Definition containsId (cluster : list Understanding) (target : string) : bool :=
  existsb (λ u, String.eqb (id u) target) cluster.

(** The loop over [k]: the last cluster holding [target] wins; [found] starts
    at [None], which stands for [-1]. *)
Fixpoint findClusterFrom (clusters : list (list Understanding)) (target : string)
    (k : nat) (found : option nat) : option nat :=
  match clusters with
  | [] => found
  | c :: rest =>
      findClusterFrom rest target (S k) (if containsId c target then Some k else found)
  end.

Definition findCluster (clusters : list (list Understanding)) (target : string)
  : option nat :=
  findClusterFrom clusters target 0 None.

(** [clusters[clusterI] = [...clusters[clusterI], ...clusters[clusterJ]];
    clusters.splice(clusterJ, 1)] *)
Definition mergeAt (clusters : list (list Understanding)) (clusterI clusterJ : nat)
  : list (list Understanding) :=
  delete clusterJ
    (<[clusterI := (clusters !!! clusterI) ++ (clusters !!! clusterJ)]> clusters).

(** The guard [clusterI !== clusterJ && clusterI !== -1 && clusterJ !== -1]. *)
Definition mergeClusters (clusters : list (list Understanding))
    (clusterI clusterJ : option nat) : list (list Understanding) :=
  match clusterI, clusterJ with
  | Some ci, Some cj => if ci =? cj then clusters else mergeAt clusters ci cj
  | _, _ => clusters
  end.

(** Body of the two nested loops for one pair [(i, j)]. *)
Definition processPair (validUnderstandings : list Understanding)
    (clusters : list (list Understanding)) (ij : nat * nat)
  : result (list (list Understanding)) :=
  let '(i, j) := ij in
  ui ←ᵣ at_index validUnderstandings i;
  uj ←ᵣ at_index validUnderstandings j;
  ei ←ᵣ embeddingOf ui;
  ej ←ᵣ embeddingOf uj;
  similarity ←ᵣ cosineSimilarity ei ej;
  if SIMILARITY_THRESHOLD <=. similarity
  then Ok (mergeClusters clusters (findCluster clusters (id ui)) (findCluster clusters (id uj)))
  else Ok clusters.

(** The pairs [(i, j)], [i < j < n], in the order the nested loops visit them. *)
Definition pairIndices (n : nat) : list (nat * nat) :=
  i ← seq 0 n; (λ j, (i, j)) <$> seq (S i) (n - S i).

Definition mergeLoop (validUnderstandings : list Understanding)
    (pairs : list (nat * nat)) (clusters : list (list Understanding))
  : result (list (list Understanding)) :=
  foldM (processPair validUnderstandings) pairs clusters.

(** [clusters.sort((a, b) => b.length - a.length)].  [Array.prototype.sort]
    is stable (ECMAScript 2019), so it is the stable insertion of each
    element before the first later element it must not follow. *)
Definition compareSize (a b : list Understanding) : Z :=
  Z.of_nat (length b) - Z.of_nat (length a).

Fixpoint insertSorted {A} (cmp : A → A → Z) (x : A) (sorted : list A) : list A :=
  match sorted with
  | [] => [x]
  | y :: rest =>
      if (0 <? cmp x y)%Z then y :: insertSorted cmp x rest else x :: y :: rest
  end.

Definition sortBy {A} (cmp : A → A → Z) (arr : list A) : list A :=
  foldr (insertSorted cmp) [] arr.

(** Sum of the similarities of member [i] to the other members. *)
Definition totalSimilarityStep (cluster : list Understanding) (i : nat)
    (totalSimilarity : number) (j : nat) : result number :=
  if i =? j then Ok totalSimilarity
  else
    ui ←ᵣ at_index cluster i;
    uj ←ᵣ at_index cluster j;
    ei ←ᵣ embeddingOf ui;
    ej ←ᵣ embeddingOf uj;
    s ←ᵣ cosineSimilarity ei ej;
    Ok (totalSimilarity +. s).

Definition avgSimilarity (cluster : list Understanding) (i : nat) : result number :=
  totalSimilarity ←ᵣ foldM (totalSimilarityStep cluster i) (seq 0 (length cluster)) zero;
  Ok (totalSimilarity /. of_nat (length cluster - 1)).

(** The state of the selection loop is [(representativeIndex, maxAvgSimilarity)]. *)
Definition selectStep (cluster : list Understanding) (st : nat * number) (i : nat)
  : result (nat * number) :=
  avg ←ᵣ avgSimilarity cluster i;
  if snd st <. avg then Ok (i, avg) else Ok st.

Definition representativeIndex (cluster : list Understanding) : result nat :=
  if 1 <? length cluster
  then st ←ᵣ foldM (selectStep cluster) (seq 0 (length cluster)) (0, of_Z N (-1)); Ok (fst st)
  else Ok 0.

Definition toCluster (totalUnderstandings : nat) (index : nat)
    (clusterUnderstandings : list Understanding) : result Cluster :=
  representativeIndex ←ᵣ representativeIndex clusterUnderstandings;
  representative ←ᵣ at_index clusterUnderstandings representativeIndex;
  Ok {| cluster_id := index + 1;
        understandings := clusterUnderstandings;
        representative_text := understanding_text representative;
        size := length clusterUnderstandings;
        percentage :=
          (of_nat (length clusterUnderstandings) /. of_nat totalUnderstandings)
          *. of_Z N 100 |}.

(** [clusters.map((c, index) => ...)], from position [index] on. *)
Fixpoint toClusters (totalUnderstandings : nat) (index : nat)
    (clusters : list (list Understanding)) : result (list Cluster) :=
  match clusters with
  | [] => Ok []
  | c :: rest =>
      cl ←ᵣ toCluster totalUnderstandings index c;
      cls ←ᵣ toClusters totalUnderstandings (S index) rest;
      Ok (cl :: cls)
  end.

Definition validOf (understandings : list Understanding) : list Understanding :=
  List.filter hasEmbedding understandings.

Definition initialClusters (validUnderstandings : list Understanding)
  : list (list Understanding) :=
  (λ u, [u]) <$> validUnderstandings.

(** The clusters as they stand when the merging loops end, before the sort. *)
Definition mergedClusters (validUnderstandings : list Understanding)
  : result (list (list Understanding)) :=
  mergeLoop validUnderstandings (pairIndices (length validUnderstandings))
    (initialClusters validUnderstandings).

Definition clusterUnderstandings (understandings : list Understanding)
  : result (list Cluster) :=
  let validUnderstandings := validOf understandings in
  if length validUnderstandings =? 0 then Ok []
  else
    clusters ←ᵣ mergedClusters validUnderstandings;
    let clusters := sortBy compareSize clusters in
    let totalUnderstandings := length validUnderstandings in
    toClusters totalUnderstandings 0 clusters.

(** ** [calculateConsensus] *)

Definition calculateConsensus (clusters : list Cluster) : number :=
  match clusters with
  | [] => zero
  | largestCluster :: _ => percentage largestCluster
  end.

(** ** ADR status ([src/app/api/adr/generate/route.ts], lines 106-109) *)

Definition adrStatus (consensusPercentage : number) : string :=
  if of_Z N 70 <. consensusPercentage then "Accepted"
  else if of_Z N 50 <=. consensusPercentage then "Proposed"
  else "Under Discussion".

(** ** Vocabulary of the specification *)

(** [similar x y]: the call [cosineSimilarity(x.embedding, y.embedding)]
    returns a value [>= SIMILARITY_THRESHOLD]. *)
Definition similar (x y : Understanding) : Prop :=
  ∃ ex ey s, embedding x = Some ex ∧ embedding y = Some ey
             ∧ cosineSimilarity ex ey = Ok s
             ∧ nleb N SIMILARITY_THRESHOLD s = true.

(** An edge of the graph: a pair of positions that the loops evaluate and
    that passes the threshold. *)
Definition linked (valid : list Understanding) (pairs : list (nat * nat))
    (x y : Understanding) : Prop :=
  ∃ i j, (i, j) ∈ pairs ∧ valid !! i = Some x ∧ valid !! j = Some y ∧ similar x y.

(** Two statements are connected when a chain of edges joins them. *)
Definition connected (valid : list Understanding) (pairs : list (nat * nat))
  : relation (Understanding) :=
  rtsc (linked valid pairs).

Definition sameCluster (clusters : list (list Understanding))
    (x y : Understanding) : Prop :=
  ∃ c, c ∈ clusters ∧ x ∈ c ∧ y ∈ c.

(** The pairs handed to the loop body index into the array. *)
Definition inRange (valid : list Understanding) (pairs : list (nat * nat)) : Prop :=
  ∀ i j, (i, j) ∈ pairs → i < length valid ∧ j < length valid.

(** The clusters hold the valid statements, each once, and none is empty. *)
Definition keepsMembers (valid : list Understanding)
    (clusters : list (list Understanding)) : Prop :=
  concat clusters ≡ₚ valid ∧ [] ∉ clusters.

(** The clusters are the connected components of the graph of the pairs
    evaluated so far: members of one cluster are connected, and both ends of
    every edge lie in one cluster. *)
Definition componentsOf (valid : list Understanding) (pairs : list (nat * nat))
    (clusters : list (list Understanding)) : Prop :=
  keepsMembers valid clusters
  ∧ (∀ c x y, c ∈ clusters → x ∈ c → y ∈ c → connected valid pairs x y)
  ∧ (∀ x y, linked valid pairs x y → sameCluster clusters x y).

(** Every usable embedding of the input has the same length [d]. *)
Definition fixedLength (d : nat) (understandings : list Understanding) : Prop :=
  Forall (λ u, hasEmbedding u = true → length <$> embedding u = Some d) understandings.

(** [cl] is the [Cluster] object built from the member list [c] found at
    position [index] of the sorted array. *)
Definition describes (totalUnderstandings index : nat) (c : list Understanding)
    (cl : Cluster) : Prop :=
  cluster_id cl = index + 1
  ∧ understandings cl = c
  ∧ size cl = length c
  ∧ percentage cl = (of_nat (length c) /. of_nat totalUnderstandings) *. of_Z N 100
  ∧ ∃ r u, representativeIndex c = Ok r ∧ c !! r = Some u
           ∧ representative_text cl = understanding_text u.

End Clustering.

Arguments Understanding N : clear implicits.
Arguments Cluster N : clear implicits.

Arguments Build_Understanding N : clear implicits.
Arguments Build_Cluster N : clear implicits.

(** ** The specification's formula for the cosine

    The dot product and the Euclidean magnitude as the specification words
    them, over the reals; [cosineSimilarity] on [Rnum] is compared with
    them. *)

Fixpoint dotProduct (a b : list R) : R :=
  match a, b with
  | x :: a', y :: b' => (x * y + dotProduct a' b')%R
  | _, _ => 0%R
  end.

Definition magnitude (a : list R) : R := R_sqrt.sqrt (dotProduct a a).

(** Cosine similarity: dot product over the product of the magnitudes, and 0
    when a magnitude is 0. *)
Definition cosine (a b : list R) : R :=
  if Req_dec_T (magnitude a) 0 then 0%R
  else if Req_dec_T (magnitude b) 0 then 0%R
  else (dotProduct a b / (magnitude a * magnitude b))%R.

(** The average similarity of the vector at position [i] to the vectors at
    the other positions. *)
Definition averageSimilarity (vectors : list (list R)) (i : nat) : R :=
  (foldr (λ j sum, if decide (j = i) then sum
                   else (cosine (vectors !!! i) (vectors !!! j) + sum)%R)
         0%R (seq 0 (length vectors))
   / INR (length vectors - 1))%R.

Definition vectorsOf (cluster : list (Understanding Rnum)) : list (list R) :=
  (λ u, default [] (embedding u)) <$> cluster.

(** ** The same formula in the arithmetic of the numbers at hand

    The three quantities that the loop of [cosineSimilarity] accumulates
    side by side, each as a sum of its own taken from left to right as the
    loop takes it, and the quotient with its guard. *)

Definition dotProductOf (N : Num) (a b : list (num N)) : num N :=
  fold_left (λ sum xy, nadd N sum (nmul N xy.1 xy.2)) (zip a b) (of_Z N 0).

Definition magnitudeOf (N : Num) (a : list (num N)) : num N :=
  nsqrt N (dotProductOf N a a).

Definition cosineOf (N : Num) (a b : list (num N)) : num N :=
  if neqb N (magnitudeOf N a) (of_Z N 0) || neqb N (magnitudeOf N b) (of_Z N 0)
  then of_Z N 0
  else ndiv N (dotProductOf N a b) (nmul N (magnitudeOf N a) (magnitudeOf N b)).

(** ** The order on the numbers

    What the selection loop needs of [<] and [<=].  Exact reals have these
    laws, and so has binary64, where every comparison with NaN is false. *)
Record OrderLaws (N : Num) : Prop := {
  lt_irrefl : ∀ x, nltb N x x = false;
  lt_le : ∀ x y, nltb N x y = true → nleb N x y = true;
  lt_trans : ∀ x y z, nltb N x y = true → nltb N y z = true → nltb N x z = true;
  lt_above : ∀ m a c, nltb N m a = false → nltb N m c = true → nleb N c a = false;
  lt_below : ∀ m x y,
    nleb N m m = true → nltb N x y = true → nltb N m y = false → nltb N x m = true;
  le_minus_one : nleb N (of_Z N (-1)) (of_Z N (-1)) = true;
}.

(** ** Sample statements

    [stA], [stC] and [stB] point in directions with cosines 4/5 (A, C),
    4/5 (C, B) and 7/25 (A, B): A and B are linked only through C. *)

Definition statement (N : Num) (name : string) (e : option (list Z)) : Understanding N :=
  Build_Understanding N name "project" name None "auth" name None
    (fmap (M := option) (fmap (M := list) (of_Z N)) e) "2024-01-01".

Definition stA (N : Num) : Understanding N := statement N "A" (Some [1; 0]%Z).
Definition stB (N : Num) : Understanding N := statement N "B" (Some [7; 24]%Z).
Definition stC (N : Num) : Understanding N := statement N "C" (Some [4; 3]%Z).
Definition stNull (N : Num) : Understanding N := statement N "D" None.
Definition stEmpty (N : Num) : Understanding N := statement N "E" (Some []).
Definition stShort (N : Num) : Understanding N := statement N "F" (Some [1]%Z).

(** Three statements whose cosines differ in exact arithmetic and are all
    rounded to 1 in binary64. *)
Definition stY (N : Num) : Understanding N := statement N "Y" (Some [1000000000; 2]%Z).
Definition stX (N : Num) : Understanding N := statement N "X" (Some [1000000000; 1]%Z).
Definition stZ (N : Num) : Understanding N := statement N "Z" (Some [1; 0]%Z).

(** The binary64 number [m * 2 ^ e]. *)
Definition binary64 (m e : Z) : num Fnum := FloatOps.Z.ldexp (float_of_Z m) e.

Definition statementWith (N : Num) (name : string) (e : list (num N)) : Understanding N :=
  Build_Understanding N name "project" name None "auth" name None (Some e) "2024-01-01".

(** Four embeddings of 768 numbers, the length the schema gives the column
    ([embedding vector(768)]), and their statements.  [vecT1] and [vecT2]
    hold [2^-537], whose square is the least positive binary64 number, and
    256 numbers of smaller magnitude ([27 * 2^-543] and [-44 * 2^-543]),
    whose squares are rounded to 0: their computed magnitude is [2^-537]
    though the vectors are longer, and their computed cosines with [vecB1]
    and [vecB2] are about 0.79 and -4.82. *)
Definition vecT1 : list (num Fnum) :=
  [binary64 1 (-537); of_Z Fnum 0]
  ++ replicate 128 (binary64 27 (-543)) ++ replicate 128 (binary64 (-44) (-543))
  ++ replicate 510 (of_Z Fnum 0).
Definition vecT2 : list (num Fnum) :=
  [of_Z Fnum 0; binary64 1 (-537)]
  ++ replicate 128 (binary64 (-44) (-543)) ++ replicate 128 (binary64 27 (-543))
  ++ replicate 510 (of_Z Fnum 0).
Definition vecB1 : list (num Fnum) :=
  [of_Z Fnum 0; of_Z Fnum 0] ++ replicate 128 (of_Z Fnum 2) ++ replicate 128 (of_Z Fnum 1)
  ++ replicate 510 (of_Z Fnum 0).
Definition vecB2 : list (num Fnum) :=
  [of_Z Fnum 0; of_Z Fnum 0] ++ replicate 128 (of_Z Fnum 1) ++ replicate 128 (of_Z Fnum 2)
  ++ replicate 510 (of_Z Fnum 0).

Definition stT1 : Understanding Fnum := statementWith Fnum "T1" vecT1.
Definition stB1 : Understanding Fnum := statementWith Fnum "B1" vecB1.
Definition stB2 : Understanding Fnum := statementWith Fnum "B2" vecB2.
Definition stT2 : Understanding Fnum := statementWith Fnum "T2" vecT2.

(** A statement that repeats the id of [stA] and points away from the rest. *)
Definition stA' (N : Num) : Understanding N := statement N "A" (Some [0; -1]%Z).

(** Ten statements: seven with the same embedding, three orthogonal to them
    and to each other. *)
Definition sevenOfTen (N : Num) : list (Understanding N) :=
  ((λ name, statement N name (Some [1; 0; 0; 0]%Z))
     <$> ["a1"; "a2"; "a3"; "a4"; "a5"; "a6"; "a7"])
  ++ [statement N "b" (Some [0; 1; 0; 0]%Z);
      statement N "c" (Some [0; 0; 1; 0]%Z);
      statement N "d" (Some [0; 0; 0; 1]%Z)].

(** * Facts about the loops *)

(** * The code around the clustering module *)

(** [Math.round] on the reals: the nearest integer, halves going up. *)
Definition mathRoundR (x : R) : R := IZR (Zfloor (x + / 2)).

(** [error instanceof Error ? error.message : 'Unknown error'].  The text of
    a [TypeError] is the engine's. *)
Definition errorMessage (typeErrorText : string) (e : exn) : string :=
  match e with
  | JsError msg => msg
  | TypeError => typeErrorText
  end.

(** [!s] for a string that may be [null]: [null] and the empty string are
    falsy. *)
Definition present (s : option string) : option string :=
  match s with
  | Some "" => None
  | other => other
  end.

Section Surroundings.
Context {N : Num}.

(** ** [calculateCosineSimilarity] ([src/app/api/predictions/route.ts]) *)

Definition calculateCosineSimilarity (vec1 vec2 : option (list (num N))) : num N :=
  match vec1, vec2 with
  | Some vec1, Some vec2 =>
      if negb (length vec1 =? length vec2) then of_Z N 0
      else
        let '(dotProduct, mag1, mag2) :=
          fold_left cosineStep (zip vec1 vec2) (of_Z N 0, of_Z N 0, of_Z N 0) in
        let mag1 := nsqrt N mag1 in
        let mag2 := nsqrt N mag2 in
        if neqb N mag1 (of_Z N 0) || neqb N mag2 (of_Z N 0) then of_Z N 0
        else ndiv N dotProduct (nmul N mag1 mag2)
  | _, _ => of_Z N 0
  end.

(** ** The helpers of [src/components/ConsensusView.tsx] *)

Definition getConsensusColor (percentage : num N) : string :=
  if nleb N (of_Z N 70) percentage then "text-green-400"
  else if nleb N (of_Z N 40) percentage then "text-yellow-400"
  else "text-red-400".

Definition getConsensusLabel (percentage : num N) : string :=
  if nleb N (of_Z N 70) percentage then "Strong Consensus"
  else if nleb N (of_Z N 40) percentage then "Moderate Consensus"
  else "Low Consensus".

Definition getClusterColor (percentage : num N) (isLargest : bool) : string :=
  if isLargest then "bg-green-500/10 border-green-500/30"
  else if nleb N (of_Z N 20) percentage then "bg-yellow-500/10 border-yellow-500/30"
  else "bg-red-500/10 border-red-500/30".

Definition getClusterBadgeColor (percentage : num N) (isLargest : bool) : string :=
  if isLargest then "bg-green-500/20 text-green-400 border-green-500/30"
  else if nleb N (of_Z N 20) percentage
       then "bg-yellow-500/20 text-yellow-400 border-yellow-500/30"
  else "bg-red-500/20 text-red-400 border-red-500/30".

Definition getBarColor (percentage : num N) (isLargest : bool) : string :=
  if isLargest then "#22c55e"
  else if nleb N (of_Z N 20) percentage then "#eab308"
  else "#ef4444".

(** ** ADR generation ([src/app/api/adr/generate/route.ts], line 172) *)

(** [consensusPercentage < 70 ? '... Moderate team alignment ...' : ''] *)
Definition alignmentNote (consensusPercentage : num N) : string :=
  if nltb N consensusPercentage (of_Z N 70)
  then "⚠️ **Note:** Moderate team alignment. Recommend follow-up discussion."
  else "".

(** ** The consensus route ([src/app/api/consensus/route.ts])

    The fields of the JSON bodies carry the prefix of their object where the
    name is taken: [dev_name] is [name] of a developer entry, [data_size] is
    [size] of a cluster entry. *)

Record Developer : Type := {
  dev_name : string;
  dev_understanding_id : string;
  dev_confidence_score : option (num N);
}.

Record ClusterData : Type := {
  data_id : nat;
  data_size : nat;
  data_percentage : num N;
  data_representative_text : string;
  developers : list Developer;
}.

Record ConsensusBody : Type := {
  message : option string;
  total_understandings : nat;
  consensus_percentage : num N;
  clusters : list ClusterData;
  body_module_name : option string;
}.

(** [NextResponse.json(body)] with status 200, or an error body with its
    status. *)
Inductive Response : Type :=
  | Json (body : ConsensusBody)
  | JsonError (status : nat) (error : string) (details : option string).

Section ConsensusRoute.
(** [Math.round] and the engine's [TypeError] text. *)
Variable mathRound : num N → num N.
Variable typeErrorText : string.

(** [Math.round(x * 10) / 10] *)
Definition roundTenth (x : num N) : num N :=
  ndiv N (mathRound (nmul N x (of_Z N 10))) (of_Z N 10).

Definition toDeveloper (u : Understanding N) : Developer :=
  {| dev_name := developer_name u;
     dev_understanding_id := id u;
     dev_confidence_score := confidence_score u |}.

Definition toClusterData (cluster : Cluster N) : ClusterData :=
  {| data_id := cluster_id cluster;
     data_size := size cluster;
     data_percentage := roundTenth (percentage cluster);
     data_representative_text := representative_text cluster;
     developers := toDeveloper <$> understandings cluster |}.

(** The filter of lines 74-88; on an [Understanding] the embedding is
    [null] or an array, so [Array.isArray] holds whenever the first test
    passes. *)
Definition isValidEmbedding (u : Understanding N) : bool :=
  match embedding u with
  | None => false
  | Some e => negb (length e =? 0)
  end.

(** Lines 43-122, for rows whose embeddings are already arrays (the parsing
    step leaves those untouched). *)
Definition analyzeConsensus (moduleName : string) (understandings : list (Understanding N))
  : result Response :=
  if length understandings <? 2
  then Ok (Json {| message := Some "Need at least 2 understandings to analyze consensus";
                   total_understandings := length understandings;
                   consensus_percentage := of_Z N 0;
                   clusters := [];
                   body_module_name := None |})
  else
    let validUnderstandings := List.filter isValidEmbedding understandings in
    if length validUnderstandings <? 2
    then Ok (Json {| message :=
                       Some ("Need at least 2 understandings with valid embeddings. Found "
                             +:+ pretty (length validUnderstandings) +:+ " valid out of "
                             +:+ pretty (length understandings) +:+ " total.");
                     total_understandings := length validUnderstandings;
                     consensus_percentage := of_Z N 0;
                     clusters := [];
                     body_module_name := None |})
    else
      clusters ←ᵣ clusterUnderstandings validUnderstandings;
      let consensusPercentage := calculateConsensus clusters in
      Ok (Json {| message := None;
                  total_understandings := length understandings;
                  consensus_percentage := roundTenth consensusPercentage;
                  clusters := toClusterData <$> clusters;
                  body_module_name := Some moduleName |}).

(** The handler; [fetch] is the query, [None] when it reports an error. *)
Definition consensusGET (projectId moduleName : option string)
    (fetch : string → string → option (list (Understanding N))) : Response :=
  match present projectId with
  | None => JsonError 400 "project_id query parameter is required" None
  | Some projectId =>
      match present moduleName with
      | None => JsonError 400 "module_name query parameter is required" None
      | Some moduleName =>
          match fetch projectId moduleName with
          | None => JsonError 500 "Failed to fetch understandings" None
          | Some data =>
              match analyzeConsensus moduleName data with
              | Ok response => response
              | Throw e =>
                  JsonError 500 "Failed to analyze consensus"
                    (Some (errorMessage typeErrorText e))
              end
          end
      end
  end.

End ConsensusRoute.

(** ** The report route ([src/app/api/reports/generate/route.ts], lines 76-114) *)

(** [if (!map.has(key)) map.set(key, []); map.get(key).push(u)] on a [Map],
    which keeps its keys in insertion order. *)
Fixpoint pushTo (groups : list (string * list (Understanding N))) (key : string)
    (u : Understanding N) : list (string * list (Understanding N)) :=
  match groups with
  | [] => [(key, [u])]
  | (k, g) :: rest =>
      if String.eqb k key then (k, g ++ [u]) :: rest else (k, g) :: pushTo rest key u
  end.

Definition groupByModule (allUnderstandings : list (Understanding N))
  : list (string * list (Understanding N)) :=
  fold_left (λ groups u, pushTo groups (module_name u) u) allUnderstandings [].

(** [Array.from(new Set(names))]: a [Set] keeps the first occurrence of each
    value, in insertion order. *)
Definition uniqueNames (names : list string) : list string :=
  fold_left (λ seen name, if bool_decide (name ∈ seen) then seen else seen ++ [name])
    names [].

Record ModuleAnalysis : Type := {
  module : string;
  consensus : num N;
  analysis_clusters : list (Cluster N);
  understandingCount : nat;
  contributors : list string;
}.

(** The callback of [moduleMap.forEach]; [u => u.embedding] keeps every
    array, the empty one too. *)
Definition analyzeModule (moduleName : string) (understandings : list (Understanding N))
  : result ModuleAnalysis :=
  let validUnderstandings := List.filter (λ u, bool_decide (is_Some (embedding u))) understandings in
  if 2 <=? length validUnderstandings
  then
    clusters ←ᵣ clusterUnderstandings validUnderstandings;
    Ok {| module := moduleName;
          consensus := calculateConsensus clusters;
          analysis_clusters := clusters;
          understandingCount := length understandings;
          contributors := uniqueNames (developer_name <$> understandings) |}
  else
    Ok {| module := moduleName;
          consensus := of_Z N 100;
          analysis_clusters := [];
          understandingCount := length understandings;
          contributors := uniqueNames (developer_name <$> understandings) |}.

(** [moduleMap.forEach(...)], in insertion order. *)
Fixpoint analyzeModules (groups : list (string * list (Understanding N)))
  : result (list ModuleAnalysis) :=
  match groups with
  | [] => Ok []
  | (moduleName, understandings) :: rest =>
      analysis ←ᵣ analyzeModule moduleName understandings;
      analyses ←ᵣ analyzeModules rest;
      Ok (analysis :: analyses)
  end.

Definition moduleAnalysis (allUnderstandings : list (Understanding N))
  : result (list ModuleAnalysis) :=
  analyzeModules (groupByModule allUnderstandings).

End Surroundings.

Arguments Developer N : clear implicits.
Arguments ClusterData N : clear implicits.
Arguments ConsensusBody N : clear implicits.
Arguments Response N : clear implicits.
Arguments ModuleAnalysis N : clear implicits.

(** A statement of a given module by a given developer. *)
Definition statementOf (N : Num) (name moduleName developer : string) (e : option (list Z))
  : Understanding N :=
  Build_Understanding N name "project" developer None moduleName name None
    (fmap (M := option) (fmap (M := list) (of_Z N)) e) "2024-01-01".

Lemma rbind_Ok {A B} (m : result A) (k : A → result B) (b : B) :
  rbind m k = Ok b ↔ ∃ a, m = Ok a ∧ k a = Ok b.
Proof.
  destruct m as [a | e]; simpl; split.
  - intros Hk. by exists a.
  - by intros (a' & [= <-] & Hk).
  - discriminate.
  - by intros (a' & [=] & _).
Qed.

Lemma at_index_Ok {A} (arr : list A) (i : nat) (a : A) :
  at_index arr i = Ok a ↔ arr !! i = Some a.
Proof.
  unfold at_index. destruct (arr !! i); split; intros H; congruence.
Qed.

Lemma foldM_app {A B} (body : B → A → result B) (xs ys : list A) (acc : B) :
  foldM body (xs ++ ys) acc = (acc' ←ᵣ foldM body xs acc; foldM body ys acc').
Proof.
  revert acc. induction xs as [| x xs IH]; intros acc; simpl; [done |].
  destruct (body acc x) as [acc' | e]; simpl; [apply IH | done].
Qed.

(** A loop that keeps an invariant and whose body never throws under it
    runs to its end. *)
Lemma foldM_total {A B} (body : B → A → result B) (I : list A → B → Prop) (xs : list A) :
  (∀ done x acc, x ∈ xs → I done acc →
     ∃ acc', body acc x = Ok acc' ∧ I (done ++ [x]) acc') →
  ∀ done acc, I done acc →
  ∃ acc', foldM body xs acc = Ok acc' ∧ I (done ++ xs) acc'.
Proof.
  induction xs as [| x xs IH]; intros Hstep done acc Hacc; simpl.
  - exists acc. by rewrite app_nil_r.
  - destruct (Hstep done x acc) as (acc1 & -> & Hacc1); [left | done |]. simpl.
    destruct (IH (λ done' y acc', λ Hy, Hstep done' y acc' (list_elem_of_further _ _ _ Hy))
                 (done ++ [x]) acc1 Hacc1) as (acc2 & -> & Hacc2).
    exists acc2. by rewrite <- app_assoc in Hacc2.
Qed.

Global Instance concat_Permutation {A} : Proper ((≡ₚ) ==> (≡ₚ)) (@concat A).
Proof.
  intros l1 l2 H. induction H as [| x l1 l2 _ IH | x y l | l1 l2 l3 _ IH1 _ IH2]; simpl.
  - done.
  - by rewrite IH.
  - rewrite !app_assoc. by rewrite (Permutation_app_comm y x).
  - by rewrite IH1.
Qed.

Lemma elem_of_concat {A} (ls : list (list A)) (x : A) :
  x ∈ concat ls ↔ ∃ l, l ∈ ls ∧ x ∈ l.
Proof.
  rewrite list_elem_of_In, in_concat. split.
  - intros (l & Hl & Hx). exists l. by rewrite !list_elem_of_In.
  - intros (l & Hl & Hx). exists l. by rewrite <- !list_elem_of_In.
Qed.

Section ClusteringFacts.
Context {N : Num}.
Implicit Types (u x y : Understanding N).
Implicit Types (c a b : list (Understanding N)).
Implicit Types (cs : list (list (Understanding N))).

Lemma containsId_true c t :
  containsId c t = true ↔ ∃ u, u ∈ c ∧ id u = t.
Proof.
  unfold containsId. rewrite existsb_exists. split.
  - intros (u & Hin & Heq). exists u. split; [by apply list_elem_of_In |].
    by apply String.eqb_eq.
  - intros (u & Hin & Heq). exists u. split; [by apply list_elem_of_In |].
    by apply String.eqb_eq.
Qed.

Lemma findClusterFrom_spec cs t k found :
  (findClusterFrom cs t k found = found ∧ ∀ c, c ∈ cs → containsId c t = false)
  ∨ (∃ i c, findClusterFrom cs t k found = Some (k + i)
            ∧ cs !! i = Some c ∧ containsId c t = true).
Proof.
  revert k found. induction cs as [| c0 rest IH]; intros k found; simpl.
  - left. split; [done |]. intros c Hc. by apply elem_of_nil in Hc.
  - destruct (IH (S k) (if containsId c0 t then Some k else found))
      as [[Heq Hnone] | (i & c & Heq & Hc & Hin)].
    + destruct (containsId c0 t) eqn:Hc0.
      * right. exists 0, c0. rewrite Heq, Nat.add_0_r. done.
      * left. split; [done |]. intros c [-> | Hc]%elem_of_cons; auto.
    + right. exists (S i), c. rewrite Heq. split; [f_equal; lia | done].
Qed.

Lemma findCluster_found cs t k :
  findCluster cs t = Some k → ∃ c, cs !! k = Some c ∧ containsId c t = true.
Proof.
  unfold findCluster. intros Hk.
  destruct (findClusterFrom_spec cs t 0 None) as [[Heq _] | (i & c & Heq & Hc & Hin)].
  - congruence.
  - rewrite Heq in Hk. injection Hk as <-. by exists c.
Qed.

Lemma findCluster_exists cs t c :
  c ∈ cs → containsId c t = true → ∃ k, findCluster cs t = Some k.
Proof.
  unfold findCluster. intros Hc Hin.
  destruct (findClusterFrom_spec cs t 0 None) as [[_ Hnone] | (i & c' & Heq & _)].
  - rewrite (Hnone c Hc) in Hin. discriminate.
  - eauto.
Qed.

(** *** One merge *)

Lemma mergeAt_concat cs ci cj a b :
  ci ≠ cj → cs !! ci = Some a → cs !! cj = Some b →
  concat (mergeAt cs ci cj) ≡ₚ concat cs.
Proof.
  intros Hne Ha Hb. unfold mergeAt.
  rewrite (list_lookup_total_correct _ _ _ Ha), (list_lookup_total_correct _ _ _ Hb).
  set (cs1 := <[ci := a ++ b]> cs).
  assert (Hlt : ci < length cs) by (by eapply lookup_lt_Some).
  assert (H1 : cs1 !! cj = Some b).
  { unfold cs1. by rewrite list_lookup_insert_ne. }
  assert (H2 : cs1 !! ci = Some (a ++ b)).
  { unfold cs1. by rewrite list_lookup_insert_eq. }
  apply (Permutation_app_inv_l b).
  change (concat (b :: delete cj cs1) ≡ₚ b ++ concat cs).
  rewrite <- (delete_Permutation cs1 cj b H1).
  rewrite (delete_Permutation cs1 ci (a ++ b) H2).
  rewrite (delete_Permutation cs ci a Ha).
  assert (Hdel : delete ci cs1 = delete ci cs).
  { unfold cs1. rewrite !delete_take_drop, insert_take_drop by done.
    rewrite take_app_le, take_take, Nat.min_id by (rewrite length_take; lia).
    rewrite drop_app_ge by (rewrite length_take; lia).
    rewrite length_take, Nat.min_l by lia.
    replace (S ci - ci) with 1 by lia. done. }
  rewrite Hdel. simpl.
  rewrite (Permutation_app_comm a b). by rewrite <- app_assoc.
Qed.

Lemma mergeAt_elem cs ci cj a b c :
  ci ≠ cj → cs !! ci = Some a → cs !! cj = Some b →
  c ∈ mergeAt cs ci cj → c ∈ cs ∨ c = a ++ b.
Proof.
  intros Hne Ha Hb Hc. unfold mergeAt in Hc.
  rewrite (list_lookup_total_correct _ _ _ Ha), (list_lookup_total_correct _ _ _ Hb) in Hc.
  apply list_elem_of_delete_inv in Hc.
  apply list_elem_of_lookup in Hc as [k Hk].
  destruct (decide (ci = k)) as [<- | Hk'].
  - rewrite list_lookup_insert_eq in Hk by (by eapply lookup_lt_Some).
    right. congruence.
  - rewrite list_lookup_insert_ne in Hk by done.
    left. by eapply list_elem_of_lookup_2.
Qed.

Lemma mergeAt_merged cs ci cj a b :
  ci ≠ cj → cs !! ci = Some a → cs !! cj = Some b →
  a ++ b ∈ mergeAt cs ci cj.
Proof.
  intros Hne Ha Hb. unfold mergeAt.
  rewrite (list_lookup_total_correct _ _ _ Ha), (list_lookup_total_correct _ _ _ Hb).
  assert (Hlt : ci < length cs) by (by eapply lookup_lt_Some).
  destruct (decide (ci < cj)) as [Hlt' | Hge].
  - apply (list_elem_of_lookup_2 _ ci).
    rewrite list_lookup_delete_lt by done. by apply list_lookup_insert_eq.
  - assert (ci = S (pred ci)) as Hci by lia.
    apply (list_elem_of_lookup_2 _ (pred ci)).
    rewrite list_lookup_delete_ge by lia. rewrite <- Hci.
    by apply list_lookup_insert_eq.
Qed.

Lemma mergeAt_kept cs ci cj a b c :
  ci ≠ cj → cs !! ci = Some a → cs !! cj = Some b →
  c ∈ cs → c ∈ mergeAt cs ci cj ∨ c = a ∨ c = b.
Proof.
  intros Hne Ha Hb [k Hk]%list_elem_of_lookup.
  destruct (decide (k = ci)) as [-> | Hki]; [right; left; congruence |].
  destruct (decide (k = cj)) as [-> | Hkj]; [right; right; congruence |].
  left. unfold mergeAt.
  destruct (decide (k < cj)) as [Hlt | Hge].
  - apply (list_elem_of_lookup_2 _ k).
    rewrite list_lookup_delete_lt by done. by rewrite list_lookup_insert_ne.
  - assert (k = S (pred k)) as Hk' by lia.
    apply (list_elem_of_lookup_2 _ (pred k)).
    rewrite list_lookup_delete_ge by lia. rewrite <- Hk'.
    by rewrite list_lookup_insert_ne.
Qed.

End ClusteringFacts.

(** ** The similarity graph and the partition *)

Section Graph.
Context {N : Num}.
Implicit Types (x y : Understanding N).

Lemma linked_mono valid pairs pairs' x y :
  pairs ⊆ pairs' → linked valid pairs x y → linked valid pairs' x y.
Proof. intros Hsub (i & j & Hij & H). exists i, j. split; [by apply Hsub | done]. Qed.

Lemma connected_mono valid pairs pairs' x y :
  pairs ⊆ pairs' → connected valid pairs x y → connected valid pairs' x y.
Proof.
  intros Hsub. apply (rtsc_congruence (λ z, z)). intros ??. by apply linked_mono.
Qed.

Lemma sameCluster_sym clusters x y : sameCluster clusters x y → sameCluster clusters y x.
Proof. intros (c & ? & ? & ?). by exists c. Qed.

Lemma sameCluster_Permutation clusters clusters' x y :
  clusters ≡ₚ clusters' → sameCluster clusters x y ↔ sameCluster clusters' x y.
Proof.
  intros HP. unfold sameCluster. split; intros (c & Hc & ?); exists c.
  - by rewrite <- HP.
  - by rewrite HP.
Qed.

(** In a family of pairwise disjoint lists, an element names its list. *)
Lemma NoDup_concat_unique {A} (ls : list (list A)) (l1 l2 : list A) (z : A) :
  NoDup (concat ls) → l1 ∈ ls → l2 ∈ ls → z ∈ l1 → z ∈ l2 → l1 = l2.
Proof.
  induction ls as [| l ls IH]; simpl; intros Hnd H1 H2 Hz1 Hz2.
  - by apply elem_of_nil in H1.
  - apply NoDup_app in Hnd as (_ & Hdisj & Hnd).
    apply elem_of_cons in H1 as [-> | H1], H2 as [-> | H2].
    + done.
    + exfalso. apply (Hdisj z Hz1). apply elem_of_concat. eauto.
    + exfalso. apply (Hdisj z Hz2). apply elem_of_concat. eauto.
    + by apply IH.
Qed.

Lemma sameCluster_trans clusters x y z :
  NoDup (concat clusters) →
  sameCluster clusters x y → sameCluster clusters y z → sameCluster clusters x z.
Proof.
  intros Hnd (c1 & Hc1 & Hx & Hy) (c2 & Hc2 & Hy' & Hz).
  assert (c1 = c2) as -> by eauto using NoDup_concat_unique.
  by exists c2.
Qed.

End Graph.

(** ** The merging loops *)

Section MergeLoop.
Context {N : Num}.
Implicit Types (u x y : Understanding N).
Implicit Types (c a b : list (Understanding N)).
Implicit Types (cs : list (list (Understanding N))).

Lemma cosineSimilarity_Ok (vecA vecB : list (num N)) :
  length vecA = length vecB → ∃ s, cosineSimilarity vecA vecB = Ok s.
Proof.
  intros Hlen. unfold cosineSimilarity. rewrite Hlen, Nat.eqb_refl. simpl.
  destruct (fold_left cosineStep (zip vecA vecB) _) as [[dp ma] mb].
  destruct (_ || _); eauto.
Qed.

Lemma cosineSimilarity_Throw (vecA vecB : list (num N)) :
  length vecA ≠ length vecB →
  cosineSimilarity vecA vecB = Throw (JsError "Vectors must have the same length").
Proof.
  intros Hne. unfold cosineSimilarity.
  by destruct (Nat.eqb_spec (length vecA) (length vecB)).
Qed.

Variable valid : list (Understanding N).
Variable d : nat.
Hypothesis Hdim : Forall (λ u, length <$> embedding u = Some d) valid.

Lemma valid_embedding x :
  x ∈ valid → ∃ ex, embedding x = Some ex ∧ length ex = d.
Proof.
  intros Hx. rewrite Forall_forall in Hdim. specialize (Hdim x Hx).
  destruct (embedding x) as [ex |]; simplify_eq/=. eauto.
Qed.

Lemma valid_cosine x y :
  x ∈ valid → y ∈ valid →
  ∃ ex ey s, embedding x = Some ex ∧ embedding y = Some ey ∧ cosineSimilarity ex ey = Ok s.
Proof.
  intros (ex & Hex & Hlx)%valid_embedding (ey & Hey & Hly)%valid_embedding.
  destruct (cosineSimilarity_Ok ex ey) as [s Hs]; [congruence |].
  by exists ex, ey, s.
Qed.

(** What the loop body does for a pair of positions inside the array. *)
Lemma processPair_valid cs i j ui uj :
  valid !! i = Some ui → valid !! j = Some uj →
  ∃ ei ej s, embedding ui = Some ei ∧ embedding uj = Some ej
    ∧ cosineSimilarity ei ej = Ok s
    ∧ processPair valid cs (i, j)
      = Ok (if nleb N SIMILARITY_THRESHOLD s
            then mergeClusters cs (findCluster cs (id ui)) (findCluster cs (id uj))
            else cs).
Proof.
  intros Hi Hj.
  destruct (valid_cosine ui uj) as (ei & ej & s & Hei & Hej & Hs);
    [by eapply list_elem_of_lookup_2 .. |].
  exists ei, ej, s. split_and!; try done.
  unfold processPair, at_index, embeddingOf. rewrite Hi, Hj. simpl.
  rewrite Hei, Hej. simpl. rewrite Hs. simpl. by destruct (nleb _ _ _).
Qed.

(** *** What every merge keeps: the members and non-emptiness *)

Lemma mergeClusters_concat cs t1 t2 :
  concat (mergeClusters cs (findCluster cs t1) (findCluster cs t2)) ≡ₚ concat cs.
Proof.
  unfold mergeClusters.
  destruct (findCluster cs t1) as [ci |] eqn:H1; [| done].
  destruct (findCluster cs t2) as [cj |] eqn:H2; [| done].
  destruct (Nat.eqb_spec ci cj) as [| Hne]; [done |].
  apply findCluster_found in H1 as (a & Ha & _), H2 as (b & Hb & _).
  by eapply mergeAt_concat.
Qed.

Lemma mergeClusters_nonempty cs t1 t2 :
  [] ∉ cs → [] ∉ mergeClusters cs (findCluster cs t1) (findCluster cs t2).
Proof.
  intros Hne. unfold mergeClusters.
  destruct (findCluster cs t1) as [ci |] eqn:H1; [| done].
  destruct (findCluster cs t2) as [cj |] eqn:H2; [| done].
  destruct (Nat.eqb_spec ci cj) as [| Hij]; [done |].
  apply findCluster_found in H1 as (a & Ha & _), H2 as (b & Hb & _).
  intros [Hin | Heq]%(mergeAt_elem _ _ _ a b); try done.
  symmetry in Heq. apply app_eq_nil in Heq as [-> _].
  apply Hne. by eapply list_elem_of_lookup_2.
Qed.

Lemma processPair_keepsMembers cs i j :
  i < length valid → j < length valid → keepsMembers valid cs →
  ∃ cs', processPair valid cs (i, j) = Ok cs' ∧ keepsMembers valid cs'.
Proof.
  intros [ui Hi]%lookup_lt_is_Some [uj Hj]%lookup_lt_is_Some [Hperm Hne].
  destruct (processPair_valid cs i j ui uj Hi Hj) as (ei & ej & s & _ & _ & _ & ->).
  eexists. split; [done |].
  destruct (nleb _ _ _); [| done]. split.
  - by rewrite mergeClusters_concat.
  - by apply mergeClusters_nonempty.
Qed.

Lemma initialClusters_keepsMembers : keepsMembers valid (initialClusters valid).
Proof.
  unfold keepsMembers, initialClusters. split.
  - clear Hdim. induction valid as [| u l IH]; simpl; [done | by constructor].
  - intros (u & [=] & _)%list_elem_of_fmap.
Qed.

Lemma mergeLoop_keepsMembers pairs cs :
  inRange valid pairs → keepsMembers valid cs →
  ∃ cs', mergeLoop valid pairs cs = Ok cs' ∧ keepsMembers valid cs'.
Proof.
  intros Hrange Hcs.
  destruct (foldM_total (processPair valid) (λ _, keepsMembers valid) pairs) with (done := @nil (nat * nat)) (acc := cs)
    as (cs' & Hrun & Hcs'); [| done | by exists cs'].
  intros _ [i j] acc Hin Hacc. destruct (Hrange i j Hin).
  by apply processPair_keepsMembers.
Qed.

(** *** With distinct ids: the clusters are the connected components *)

Hypothesis Hids : NoDup (id <$> valid).

Lemma valid_id_inj x y : x ∈ valid → y ∈ valid → id x = id y → x = y.
Proof.
  intros [i Hi]%list_elem_of_lookup [j Hj]%list_elem_of_lookup Heq.
  assert (i = j) as ->; [| congruence].
  apply (NoDup_lookup (id <$> valid) i j (id x)); [done | |].
  - by rewrite list_lookup_fmap, Hi.
  - by rewrite list_lookup_fmap, Hj, Heq.
Qed.

Lemma valid_NoDup : NoDup valid.
Proof. by eapply NoDup_fmap_1. Qed.

(** Looking a valid statement up by its id finds the cluster that holds it. *)
Lemma findCluster_valid cs u :
  concat cs ≡ₚ valid → u ∈ valid →
  ∃ k a, findCluster cs (id u) = Some k ∧ cs !! k = Some a ∧ u ∈ a.
Proof.
  intros Hperm Hu.
  assert (u ∈ concat cs) as (c0 & Hc0 & Hu0)%elem_of_concat by (by rewrite Hperm).
  destruct (findCluster_exists cs (id u) c0 Hc0) as [k Hk].
  { apply containsId_true. eauto. }
  destruct (findCluster_found cs (id u) k Hk) as (a & Ha & (u' & Hu' & Hid)%containsId_true).
  exists k, a. split_and!; try done.
  assert (u' ∈ valid).
  { rewrite <- Hperm. apply elem_of_concat. exists a.
    split; [by eapply list_elem_of_lookup_2 | done]. }
  by rewrite <- (valid_id_inj u' u).
Qed.

Lemma linked_snoc done i j ui uj x y :
  valid !! i = Some ui → valid !! j = Some uj →
  linked valid (done ++ [(i, j)]) x y →
  linked valid done x y ∨ (x = ui ∧ y = uj ∧ similar ui uj).
Proof.
  intros Hi Hj (i' & j' & [Hin | Hin]%elem_of_app & Hx & Hy & Hsim).
  - left. by exists i', j'.
  - apply list_elem_of_singleton in Hin. injection Hin as -> ->.
    right. assert (x = ui) as -> by congruence. assert (y = uj) as -> by congruence.
    done.
Qed.

Lemma processPair_componentsOf done cs i j cs' :
  i < length valid → j < length valid →
  componentsOf valid done cs →
  processPair valid cs (i, j) = Ok cs' →
  componentsOf valid (done ++ [(i, j)]) cs'.
Proof.
  intros Hi Hj (Hkeep & Hsound & Hcomplete) Hrun.
  destruct (processPair_keepsMembers cs i j Hi Hj Hkeep) as (cs'' & Hrun' & Hkeep').
  assert (cs'' = cs') as -> by congruence. clear Hrun'.
  split; [done |].
  apply lookup_lt_is_Some in Hi as [ui Hui], Hj as [uj Huj].
  destruct (processPair_valid cs i j ui uj Hui Huj) as (ei & ej & s & Hei & Hej & Hs & Heq).
  rewrite Heq in Hrun. injection Hrun as <-.
  assert (Hmono : ∀ x y, connected valid done x y → connected valid (done ++ [(i, j)]) x y).
  { intros x y. apply connected_mono. intros p Hp. apply elem_of_app. by left. }
  assert (Hsim : similar ui uj ↔ nleb N SIMILARITY_THRESHOLD s = true).
  { split.
    - intros (ei' & ej' & s' & Hei' & Hej' & Hs' & Hle). congruence.
    - intros Hle. by exists ei, ej, s. }
  destruct (nleb N SIMILARITY_THRESHOLD s) eqn:Hle.
  2:{ split.
      - eauto.
      - intros x y [Hold | (-> & -> & Hnew)]%(linked_snoc _ _ _ ui uj); [eauto | | done..].
        apply Hsim in Hnew. discriminate. }
  destruct Hkeep as [Hperm Hne].
  destruct (findCluster_valid cs ui Hperm) as (ci & a & -> & Ha & Huia);
    [by eapply list_elem_of_lookup_2 |].
  destruct (findCluster_valid cs uj Hperm) as (cj & b & -> & Hb & Hujb);
    [by eapply list_elem_of_lookup_2 |].
  assert (Ha' : a ∈ cs) by (by eapply list_elem_of_lookup_2).
  assert (Hb' : b ∈ cs) by (by eapply list_elem_of_lookup_2).
  unfold mergeClusters. destruct (Nat.eqb_spec ci cj) as [-> | Hij].
  { assert (a = b) as -> by congruence. split.
    - eauto.
    - intros x y [Hold | (-> & -> & Hnew)]%(linked_snoc _ _ _ ui uj); [eauto | | done..].
      by exists b. }
  assert (Hedge : connected valid (done ++ [(i, j)]) ui uj).
  { apply rtsc_lr. exists i, j. split_and!; try done; [| by apply Hsim].
    apply elem_of_app. right. by apply list_elem_of_singleton. }
  assert (Hall : ∀ z, z ∈ a ++ b → connected valid (done ++ [(i, j)]) z ui).
  { intros z [Hz | Hz]%elem_of_app.
    - apply Hmono. by apply (Hsound a).
    - transitivity uj; [| by symmetry]. apply Hmono. by apply (Hsound b). }
  assert (Hmerged : a ++ b ∈ mergeAt cs ci cj) by (by apply mergeAt_merged).
  split.
  - intros c x y [Hc | ->]%(mergeAt_elem _ _ _ a b) Hx Hy; try done.
    + apply Hmono. by apply (Hsound c).
    + transitivity ui; [by apply Hall | symmetry; by apply Hall].
  - intros x y [Hold | (-> & -> & Hnew)]%(linked_snoc _ _ _ ui uj); try done.
    + destruct (Hcomplete x y Hold) as (c & Hc & Hx & Hy).
      destruct (mergeAt_kept cs ci cj a b c Hij Ha Hb Hc) as [Hc' | [-> | ->]].
      * by exists c.
      * exists (a ++ b). split_and!; [done | apply elem_of_app; by left ..].
      * exists (a ++ b). split_and!; [done | apply elem_of_app; by right ..].
    + exists (a ++ b). split_and!; [done | apply elem_of_app; by left | apply elem_of_app; by right].
Qed.

Lemma initialClusters_componentsOf : componentsOf valid [] (initialClusters valid).
Proof.
  split; [apply initialClusters_keepsMembers | split].
  - intros c x y (u & -> & _)%list_elem_of_fmap Hx Hy.
    apply list_elem_of_singleton in Hx as ->, Hy as ->. reflexivity.
  - intros x y (i & j & Hin & _). by apply elem_of_nil in Hin.
Qed.

Lemma mergeLoop_componentsOf pairs :
  inRange valid pairs →
  ∃ cs, mergeLoop valid pairs (initialClusters valid) = Ok cs
        ∧ componentsOf valid pairs cs.
Proof.
  intros Hrange.
  destruct (foldM_total (processPair valid) (componentsOf valid) pairs)
    with (done := @nil (nat * nat)) (acc := initialClusters valid)
    as (cs & Hrun & Hcs); [| apply initialClusters_componentsOf | by exists cs].
  intros done [i j] acc Hin Hacc. destruct (Hrange i j Hin) as [Hi Hj].
  destruct (processPair_keepsMembers acc i j Hi Hj) as (acc' & Hrun & _); [apply Hacc |].
  exists acc'. split; [done |]. by apply (processPair_componentsOf done acc).
Qed.

(** A partition into connected components: same cluster iff connected. *)
Lemma componentsOf_sameCluster pairs cs x y :
  componentsOf valid pairs cs → x ∈ valid → y ∈ valid →
  sameCluster cs x y ↔ connected valid pairs x y.
Proof.
  intros ([Hperm Hne] & Hsound & Hcomplete) Hx Hy. split.
  - intros (c & Hc & Hxc & Hyc). by apply (Hsound c).
  - assert (Hnd : NoDup (concat cs)) by (rewrite Hperm; apply valid_NoDup).
    clear Hy. intros Hconn. induction Hconn as [x | x z y Hxz _ IH].
    + assert (x ∈ concat cs) as (c & Hc & Hxc)%elem_of_concat by (by rewrite Hperm).
      by exists c.
    + assert (sameCluster cs x z ∧ z ∈ valid) as [Hxz' Hz].
      { destruct Hxz as [Hl | Hl].
        - split; [by apply Hcomplete |].
          destruct Hl as (i & j & _ & _ & Hj & _). by eapply list_elem_of_lookup_2.
        - split; [by apply sameCluster_sym, Hcomplete |].
          destruct Hl as (i & j & _ & Hi & _ & _). by eapply list_elem_of_lookup_2. }
      eapply sameCluster_trans; eauto.
Qed.

End MergeLoop.

(** ** The sort *)

Section Sort.
Context {A : Type} (cmp : A → A → Z).

Lemma insertSorted_Permutation x l : insertSorted cmp x l ≡ₚ x :: l.
Proof.
  induction l as [| y l IH]; simpl; [done |].
  destruct (0 <? cmp x y)%Z; [| done].
  rewrite IH. apply perm_swap.
Qed.

Lemma sortBy_Permutation l : sortBy cmp l ≡ₚ l.
Proof.
  induction l as [| x l IH]; simpl; [done |].
  by rewrite insertSorted_Permutation, IH.
Qed.

(** Elements that the comparator never orders strictly keep their order. *)
Lemma insertSorted_filter (P : A → Prop) `{!∀ x, Decision (P x)} x l :
  (∀ y, P x → P y → ¬ (0 < cmp x y)%Z) →
  filter P (insertSorted cmp x l) = filter P (x :: l).
Proof.
  intros Hxy. induction l as [| y l IH]; simpl; [done |].
  destruct (Z.ltb_spec 0 (cmp x y)) as [Hlt | _]; [| done].
  rewrite (filter_cons _ y), IH, !filter_cons.
  destruct (decide (P x)) as [Hx |], (decide (P y)) as [Hy |]; try done.
  by destruct (Hxy y Hx Hy).
Qed.

Lemma sortBy_filter (P : A → Prop) `{!∀ x, Decision (P x)} l :
  (∀ x y, P x → P y → ¬ (0 < cmp x y)%Z) →
  filter P (sortBy cmp l) = filter P l.
Proof.
  intros Hxy. induction l as [| x l IH]; simpl; [done |].
  rewrite insertSorted_filter by auto.
  by rewrite !filter_cons, IH.
Qed.

End Sort.

Section SortBySize.
Context {N : Num}.
Implicit Types (c a b : list (Understanding N)).
Implicit Types (cs : list (list (Understanding N))).

Lemma insertSorted_size_sorted c cs :
  StronglySorted (λ a b, length b ≤ length a) cs →
  StronglySorted (λ a b, length b ≤ length a) (insertSorted compareSize c cs).
Proof.
  induction 1 as [| y l Hl IH Hy]; simpl.
  - repeat constructor.
  - unfold compareSize at 1. destruct (Z.ltb_spec 0 (Z.of_nat (length y) - Z.of_nat (length c))) as [Hlt | Hge].
    + constructor; [done |].
      rewrite insertSorted_Permutation. constructor; [lia | done].
    + constructor; [by constructor |].
      constructor; [lia |]. eapply Forall_impl; [done |]. simpl. intros. lia.
Qed.

Lemma sortBy_size_sorted cs :
  StronglySorted (λ a b, length b ≤ length a) (sortBy compareSize cs).
Proof.
  induction cs as [| c cs IH]; simpl; [constructor |].
  by apply insertSorted_size_sorted.
Qed.

(** Clusters of one size are found in the sorted array in the order they had
    before. *)
Lemma sortBy_size_stable n cs :
  filter (λ c, length c = n) (sortBy compareSize cs) = filter (λ c, length c = n) cs.
Proof.
  apply sortBy_filter. intros a b Ha Hb. unfold compareSize. lia.
Qed.

End SortBySize.

(** ** Building the [Cluster] objects *)

Section Representative.
Context {N : Num}.
Implicit Types (u x y : Understanding N).
Implicit Types (c : list (Understanding N)).
Implicit Types (cs : list (list (Understanding N))).

Variable d : nat.

Lemma totalSimilarityStep_Ok c i total j :
  Forall (λ u, length <$> embedding u = Some d) c →
  i < length c → j < length c →
  ∃ total', totalSimilarityStep c i total j = Ok total'.
Proof.
  intros Hdim [ui Hi]%lookup_lt_is_Some [uj Hj]%lookup_lt_is_Some.
  unfold totalSimilarityStep. destruct (i =? j); [eauto |].
  destruct (valid_cosine c d Hdim ui uj) as (ei & ej & s & Hei & Hej & Hs);
    [by eapply list_elem_of_lookup_2 .. |].
  unfold at_index, embeddingOf. rewrite Hi, Hj. simpl. rewrite Hei, Hej. simpl.
  rewrite Hs. simpl. eauto.
Qed.

Lemma avgSimilarity_Ok c i :
  Forall (λ u, length <$> embedding u = Some d) c →
  i < length c → ∃ avg, avgSimilarity c i = Ok avg.
Proof.
  intros Hdim Hi. unfold avgSimilarity.
  destruct (foldM_total (totalSimilarityStep c i) (λ _ _, True) (seq 0 (length c)))
    with (done := @nil nat) (acc := of_Z N 0) as (total & -> & _); [| done | simpl; eauto].
  intros _ j acc Hj%elem_of_seq _.
  destruct (totalSimilarityStep_Ok c i acc j) as [acc' ->]; [done | done | lia |].
  eauto.
Qed.

Lemma representativeIndex_Ok c :
  Forall (λ u, length <$> embedding u = Some d) c → c ≠ [] →
  ∃ r u, representativeIndex c = Ok r ∧ c !! r = Some u.
Proof.
  intros Hdim Hne. unfold representativeIndex.
  assert (0 < length c) as Hpos by (destruct c; [done | simpl; lia]).
  destruct (1 <? length c).
  - destruct (foldM_total (selectStep c) (λ _ st, fst st < length c) (seq 0 (length c)))
      with (done := @nil nat) (acc := (0, of_Z N (-1))) as (st & -> & Hst); [| done |].
    + intros _ i st Hi%elem_of_seq Hst. unfold selectStep.
      destruct (avgSimilarity_Ok c i) as [avg ->]; [done | lia |]. simpl.
      destruct (nltb N (snd st) avg); eexists; (split; [done |]); simpl; lia.
    + simpl. apply lookup_lt_is_Some in Hst as [u Hu]. eauto.
  - apply lookup_lt_is_Some in Hpos as [u Hu]. eauto.
Qed.

Lemma toClusters_spec total index cs :
  Forall (λ c, Forall (λ u, length <$> embedding u = Some d) c ∧ c ≠ []) cs →
  ∃ out, toClusters total index cs = Ok out
         ∧ length out = length cs
         ∧ ∀ k cl, out !! k = Some cl →
             ∃ c, cs !! k = Some c ∧ describes total (index + k) c cl.
Proof.
  revert index. induction cs as [| c cs IH]; intros index Hcs; simpl.
  - exists []. split_and!; try done.
  - apply Forall_cons in Hcs as [[Hdim Hne] Hcs].
    destruct (representativeIndex_Ok c Hdim Hne) as (r & u & Hr & Hu).
    unfold toCluster, at_index. rewrite Hr. simpl. rewrite Hu. simpl.
    destruct (IH (S index) Hcs) as (out & -> & Hlen & Hout). simpl.
    eexists. split_and!; [done | by simpl; rewrite Hlen |].
    intros [| k] cl Hcl; simplify_eq/=.
    + exists c. split; [done |]. rewrite Nat.add_0_r. unfold describes. simpl.
      split_and!; try done. by exists r, u.
    + destruct (Hout k cl Hcl) as (c' & Hc' & Hd). exists c'. split; [done |].
      by replace (index + S k) with (S index + k) by lia.
Qed.

End Representative.

(** ** [clusterUnderstandings], end to end *)

Section EndToEnd.
Context {N : Num}.
Implicit Types (u x y : Understanding N).
Implicit Types (understandings : list (Understanding N)).

Lemma elem_of_validOf understandings u :
  u ∈ validOf understandings ↔ u ∈ understandings ∧ hasEmbedding u = true.
Proof. unfold validOf. by rewrite list_elem_of_In, filter_In, <- list_elem_of_In. Qed.

Lemma validOf_fixedLength d understandings :
  fixedLength d understandings →
  Forall (λ u, length <$> embedding u = Some d) (validOf understandings).
Proof.
  unfold fixedLength. rewrite !Forall_forall.
  intros H u [Hu Hemb]%elem_of_validOf. auto.
Qed.

Lemma elem_of_pairIndices n i j : (i, j) ∈ pairIndices n ↔ i < j < n.
Proof.
  unfold pairIndices. rewrite list_elem_of_bind. split.
  - intros (i' & (j' & [= -> ->] & Hj%elem_of_seq)%list_elem_of_fmap & Hi%elem_of_seq). lia.
  - intros Hij. exists i. split; [| apply elem_of_seq; lia].
    apply list_elem_of_fmap. exists j. split; [done |]. apply elem_of_seq. lia.
Qed.

Lemma pairIndices_inRange (valid : list (Understanding N)) :
  inRange valid (pairIndices (length valid)).
Proof. intros i j Hij%elem_of_pairIndices. lia. Qed.

(** With usable embeddings of one length the call returns: the loops end
    with clusters holding the valid statements, and the result describes
    those clusters, sorted. *)
Lemma clusterUnderstandings_spec d understandings :
  fixedLength d understandings →
  ∃ cs out,
    mergedClusters (validOf understandings) = Ok cs
    ∧ keepsMembers (validOf understandings) cs
    ∧ clusterUnderstandings understandings = Ok out
    ∧ length out = length cs
    ∧ ∀ k cl, out !! k = Some cl →
        ∃ c, sortBy compareSize cs !! k = Some c
             ∧ describes (length (validOf understandings)) k c cl.
Proof.
  intros Hdim%validOf_fixedLength. unfold clusterUnderstandings, mergedClusters.
  set (valid := validOf understandings) in *.
  destruct (mergeLoop_keepsMembers valid d Hdim (pairIndices (length valid))
              (initialClusters valid)) as (cs & Hcs & Hkeep).
  { apply pairIndices_inRange. }
  { apply initialClusters_keepsMembers. }
  exists cs. rewrite Hcs. simpl.
  destruct (toClusters_spec d (length valid) 0 (sortBy compareSize cs))
    as (out & Hout & Hlen & Hdesc).
  { destruct Hkeep as [Hperm Hne]. apply Forall_forall. intros c Hc.
    rewrite sortBy_Permutation in Hc. split.
    - apply Forall_forall. intros u Hu. rewrite Forall_forall in Hdim. apply Hdim.
      rewrite <- Hperm. apply elem_of_concat. eauto.
    - intros ->. done. }
  destruct (Nat.eqb_spec (length valid) 0) as [Hz | Hnz].
  - apply nil_length_inv in Hz. destruct Hkeep as [Hperm Hne]. rewrite Hz in Hperm.
    assert (cs = []) as ->.
    { destruct cs as [| c cs']; [done |]. destruct c as [| u c].
      - exfalso. apply Hne. left.
      - simpl in Hperm. by apply Permutation_nil_r in Hperm. }
    exists []. split_and!; try done. by rewrite Hz.
  - exists out. split_and!; try done.
    by rewrite Hlen, (Permutation_length (sortBy_Permutation _ cs)).
Qed.

End EndToEnd.

Section Partition.
Context {N : Num}.
Implicit Types (x y : Understanding N).

Lemma NoDup_concat_index {A} (ls : list (list A)) (k1 k2 : nat) (l1 l2 : list A) (z : A) :
  NoDup (concat ls) → ls !! k1 = Some l1 → ls !! k2 = Some l2 →
  z ∈ l1 → z ∈ l2 → k1 = k2.
Proof.
  revert k1 k2. induction ls as [| l ls IH]; intros k1 k2 Hnd H1 H2 Hz1 Hz2; [done |].
  simpl in Hnd. apply NoDup_app in Hnd as (_ & Hdisj & Hnd).
  destruct k1 as [| k1], k2 as [| k2]; simplify_eq/=.
  - done.
  - exfalso. apply (Hdisj z Hz1). apply elem_of_concat.
    exists l2. split; [by eapply list_elem_of_lookup_2 | done].
  - exfalso. apply (Hdisj z Hz2). apply elem_of_concat.
    exists l1. split; [by eapply list_elem_of_lookup_2 | done].
  - f_equal. by apply IH.
Qed.

Lemma described_understandings total (cs : list (list (Understanding N)))
    (out : list (Cluster N)) :
  length out = length cs →
  (∀ k cl, out !! k = Some cl → ∃ c, cs !! k = Some c ∧ describes total k c cl) →
  understandings <$> out = cs.
Proof.
  intros Hlen Hdesc. apply list_eq. intros k. rewrite list_lookup_fmap.
  destruct (out !! k) as [cl |] eqn:Hk; simpl.
  - destruct (Hdesc k cl Hk) as (c & -> & _ & -> & _). done.
  - symmetry. apply lookup_ge_None. rewrite <- Hlen. by apply lookup_ge_None.
Qed.

Lemma sameCluster_valid (valid : list (Understanding N)) cs x y :
  concat cs ≡ₚ valid → sameCluster cs x y → x ∈ valid ∧ y ∈ valid.
Proof.
  intros Hperm (c & Hc & Hx & Hy).
  split; rewrite <- Hperm; apply elem_of_concat; eauto.
Qed.

End Partition.

Lemma StronglySorted_lookup {A} (R : relation A) (l : list A) (i j : nat) (a b : A) :
  StronglySorted R l → i < j → l !! i = Some a → l !! j = Some b → R a b.
Proof.
  intros Hl. revert i j. induction Hl as [| x l _ IH Hx]; intros i j Hij Hi Hj; [done |].
  destruct j as [| j]; [lia |]. destruct i as [| i]; simplify_eq/=.
  - rewrite Forall_forall in Hx. apply Hx. by eapply list_elem_of_lookup_2.
  - apply (IH i j); [lia | done..].
Qed.

(** *** When the call throws *)

Lemma foldM_Throw {A B} (body : B → A → result B) (e : exn) (xs : list A) (acc : B) :
  (∀ x acc, x ∈ xs → (∃ acc', body acc x = Ok acc') ∨ body acc x = Throw e) →
  (∃ x, x ∈ xs ∧ ∀ acc, body acc x = Throw e) →
  foldM body xs acc = Throw e.
Proof.
  revert acc. induction xs as [| x xs IH]; intros acc Hstep (x0 & Hx0 & Hthrow).
  - by apply elem_of_nil in Hx0.
  - simpl. destruct (Hstep x acc) as [[acc' Hacc'] | Hacc']; [left | | by rewrite Hacc'].
    rewrite Hacc'. simpl. apply elem_of_cons in Hx0 as [-> | Hx0].
    + rewrite Hthrow in Hacc'. discriminate.
    + apply IH; [| by exists x0]. intros y acc0 Hy. apply Hstep. by right.
Qed.

Section Throws.
Context {N : Num}.
Implicit Types (u x y : Understanding N).

Lemma hasEmbedding_true u :
  hasEmbedding u = true ↔ ∃ e, embedding u = Some e ∧ e ≠ [].
Proof.
  unfold hasEmbedding. split.
  - destruct (embedding u) as [[| a e] |]; simpl; try discriminate.
    intros _. by eexists.
  - intros (e & -> & He). by destruct e.
Qed.

Lemma validOf_idemp (statements : list (Understanding N)) :
  validOf (validOf statements) = validOf statements.
Proof.
  unfold validOf. induction statements as [| u l IH]; simpl; [done |].
  destruct (hasEmbedding u) eqn:Hu; simpl; [| done]. by rewrite Hu, IH.
Qed.

Lemma processPair_outcome (valid : list (Understanding N)) cs i j :
  (∀ u, u ∈ valid → hasEmbedding u = true) →
  i < length valid → j < length valid →
  (∃ cs', processPair valid cs (i, j) = Ok cs')
  ∨ processPair valid cs (i, j) = Throw (JsError "Vectors must have the same length").
Proof.
  intros Hemb [ui Hi]%lookup_lt_is_Some [uj Hj]%lookup_lt_is_Some.
  destruct (proj1 (hasEmbedding_true ui)) as (ei & Hei & _);
    [by eapply Hemb, list_elem_of_lookup_2 |].
  destruct (proj1 (hasEmbedding_true uj)) as (ej & Hej & _);
    [by eapply Hemb, list_elem_of_lookup_2 |].
  unfold processPair, at_index, embeddingOf. rewrite Hi, Hj. simpl. rewrite Hei, Hej. simpl.
  destruct (decide (length ei = length ej)) as [Hlen | Hlen].
  - destruct (cosineSimilarity_Ok ei ej Hlen) as [s ->]. simpl.
    left. destruct (nleb _ _ _); eauto.
  - right. by rewrite cosineSimilarity_Throw.
Qed.

Lemma processPair_mismatch (valid : list (Understanding N)) cs i j ui uj ei ej :
  valid !! i = Some ui → valid !! j = Some uj →
  embedding ui = Some ei → embedding uj = Some ej → length ei ≠ length ej →
  processPair valid cs (i, j) = Throw (JsError "Vectors must have the same length").
Proof.
  intros Hi Hj Hei Hej Hlen.
  unfold processPair, at_index, embeddingOf. rewrite Hi, Hj. simpl. rewrite Hei, Hej. simpl.
  by rewrite cosineSimilarity_Throw.
Qed.

Lemma mergedClusters_mismatch (valid : list (Understanding N)) x y ex ey :
  (∀ u, u ∈ valid → hasEmbedding u = true) →
  x ∈ valid → y ∈ valid → embedding x = Some ex → embedding y = Some ey →
  length ex ≠ length ey →
  mergedClusters valid = Throw (JsError "Vectors must have the same length").
Proof.
  intros Hemb [i Hi]%list_elem_of_lookup [j Hj]%list_elem_of_lookup Hex Hey Hlen.
  unfold mergedClusters, mergeLoop. apply foldM_Throw.
  - intros [i' j'] cs Hin. destruct (pairIndices_inRange valid i' j' Hin).
    by apply processPair_outcome.
  - assert (i ≠ j) by (intros ->; congruence).
    pose proof (lookup_lt_Some _ _ _ Hi). pose proof (lookup_lt_Some _ _ _ Hj).
    destruct (decide (i < j)).
    + exists (i, j). split; [apply elem_of_pairIndices; lia |].
      intros cs. by eapply processPair_mismatch.
    + exists (j, i). split; [apply elem_of_pairIndices; lia |].
      intros cs. eapply processPair_mismatch; eauto.
Qed.

End Throws.

(** ** Exact arithmetic: [cosineSimilarity] on [Rnum] *)

Section Cosine.
Local Open Scope R_scope.

Lemma dotProduct_self_nonneg (a : list R) : 0 <= dotProduct a a.
Proof. induction a as [| x a IH]; simpl; [lra | nra]. Qed.

Lemma fold_cosineStep (a b : list R) (d0 m0 n0 : R) :
  length a = length b →
  fold_left (cosineStep (N := Rnum)) (zip a b) (d0, m0, n0)
  = (d0 + dotProduct a b, m0 + dotProduct a a, n0 + dotProduct b b).
Proof.
  revert b d0 m0 n0. induction a as [| x a IH]; intros [| y b] d0 m0 n0 Hlen;
    simplify_eq/=.
  - f_equal; [f_equal |]; lra.
  - rewrite IH by done. f_equal; [f_equal |]; lra.
Qed.

(** Cauchy-Schwarz, by induction on the two vectors. *)
Lemma dotProduct_Cauchy_Schwarz (a b : list R) :
  length a = length b →
  dotProduct a b * dotProduct a b <= dotProduct a a * dotProduct b b.
Proof.
  revert b. induction a as [| x a IH]; intros [| y b] Hlen; simplify_eq/=; [lra |].
  specialize (IH b Hlen).
  pose proof (dotProduct_self_nonneg a) as HA.
  pose proof (dotProduct_self_nonneg b) as HB.
  set (D := dotProduct a b) in *. set (A := dotProduct a a) in *.
  set (B := dotProduct b b) in *.
  assert (Hmix : 2 * (x * y * D) <= x * x * B + y * y * A).
  { destruct (Rle_dec (2 * (x * y * D)) (x * x * B + y * y * A)) as [| Hgt]; [done |].
    exfalso. apply Rnot_le_lt in Hgt.
    set (P := x * x * B + y * y * A) in *. set (Q := 2 * (x * y * D)) in *.
    assert (0 <= P) by (unfold P; nra).
    assert (P * P < Q * Q) by nra.
    assert (Q * Q <= 4 * (x * x * (y * y)) * (A * B)).
    { unfold Q. assert (0 <= x * x * (y * y)) by nra. nra. }
    pose proof (Rle_0_sqr (x * x * B - y * y * A)) as Hsq. unfold Rsqr in Hsq.
    assert (P * P = (x * x * B - y * y * A) * (x * x * B - y * y * A)
                    + 4 * (x * x * (y * y)) * (A * B)) by (unfold P; ring).
    lra. }
  nra.
Qed.

Lemma quotient_bounds (D A B : R) :
  D * D <= A * B → 0 <= A → 0 <= B → sqrt A ≠ 0 → sqrt B ≠ 0 →
  -1 <= D / (sqrt A * sqrt B) <= 1.
Proof.
  intros HCS HA HB HsA HsB.
  pose proof (sqrt_pos A). pose proof (sqrt_pos B).
  assert (0 < sqrt A * sqrt B) as Hpos by nra.
  assert (D * D <= (sqrt A * sqrt B) * (sqrt A * sqrt B)) as Hsq.
  { replace (sqrt A * sqrt B * (sqrt A * sqrt B))
      with ((sqrt A * sqrt A) * (sqrt B * sqrt B)) by ring.
    by rewrite !sqrt_sqrt. }
  set (M := sqrt A * sqrt B) in *.
  assert (- M <= D <= M) as [Hlo Hhi] by nra.
  split.
  - apply (Rmult_le_reg_r M); [done |]. unfold Rdiv.
    rewrite Rmult_assoc, Rinv_l by lra. lra.
  - apply (Rmult_le_reg_r M); [done |]. unfold Rdiv.
    rewrite Rmult_assoc, Rinv_l by lra. lra.
Qed.

Lemma cosineSimilarity_real (vecA vecB : list (num Rnum)) :
  length vecA = length vecB →
  ∃ s, cosineSimilarity (N := Rnum) vecA vecB = Ok s
       ∧ (magnitude vecA = 0 ∨ magnitude vecB = 0 → s = 0)
       ∧ (magnitude vecA ≠ 0 → magnitude vecB ≠ 0 →
            s = dotProduct vecA vecB / (magnitude vecA * magnitude vecB))
       ∧ -1 <= s <= 1.
Proof.
  intros Hlen. unfold cosineSimilarity. rewrite Hlen, Nat.eqb_refl. simpl.
  rewrite fold_cosineStep by done. rewrite !Rplus_0_l. fold (magnitude vecA) (magnitude vecB).
  destruct (Req_dec_T (magnitude vecA) 0) as [HA | HA]; simpl.
  { exists 0. split_and!; try done; lra. }
  destruct (Req_dec_T (magnitude vecB) 0) as [HB | HB]; simpl.
  { exists 0. split_and!; try done; lra. }
  eexists. split; [done |]. split; [by intros [? | ?] |]. split; [done |].
  apply quotient_bounds; try done; auto using dotProduct_self_nonneg, dotProduct_Cauchy_Schwarz.
Qed.

Lemma cosineSimilarity_cosine (vecA vecB : list (num Rnum)) :
  length vecA = length vecB → cosineSimilarity (N := Rnum) vecA vecB = Ok (cosine vecA vecB).
Proof.
  intros Hlen. destruct (cosineSimilarity_real vecA vecB Hlen) as (s & -> & Hzero & Hs & _).
  f_equal. unfold cosine.
  destruct (Req_dec_T (magnitude vecA) 0) as [HA | HA]; [by apply Hzero; left |].
  destruct (Req_dec_T (magnitude vecB) 0) as [HB | HB]; [by apply Hzero; right |].
  by apply Hs.
Qed.

Lemma magnitude_zero_vector (a : list R) : Forall (λ x, x = 0) a → magnitude a = 0.
Proof.
  intros Hz. unfold magnitude. replace (dotProduct a a) with 0; [apply sqrt_0 |].
  induction Hz as [| x a -> _ IH]; simpl; [done |]. rewrite <- IH. lra.
Qed.

Lemma cosineSimilarity_real_bounds (vecA vecB : list (num Rnum)) (s : R) :
  cosineSimilarity (N := Rnum) vecA vecB = Ok s → -1 <= s <= 1.
Proof.
  intros Hs. destruct (decide (length vecA = length vecB)) as [Hlen | Hlen].
  - destruct (cosineSimilarity_real vecA vecB Hlen) as (s' & Hs' & _ & _ & Hb). congruence.
  - rewrite cosineSimilarity_Throw in Hs by done. discriminate.
Qed.

End Cosine.

(** ** Exact arithmetic: the choice of the representative *)



Section RepresentativeReal.
Local Open Scope R_scope.
Implicit Types (c : list (Understanding Rnum)).







End RepresentativeReal.



(** ** What every result satisfies *)

Lemma sum_list_length_concat {A} (ls : list (list A)) :
  sum_list (length <$> ls) = length (concat ls).
Proof.
  induction ls as [| l ls IH]; [done |].
  rewrite fmap_cons. simpl. by rewrite length_app, <- IH.
Qed.

Lemma clusterUnderstandings_facts
    (N : Num) (d : nat) (statements : list (Understanding N)) :
  fixedLength d statements →
  ∃ cs out,
    mergedClusters (validOf statements) = Ok cs
    ∧ keepsMembers (validOf statements) cs
    ∧ clusterUnderstandings statements = Ok out
    ∧ understandings <$> out = sortBy compareSize cs
    ∧ (∀ k cl, out !! k = Some cl →
         describes (length (validOf statements)) k (understandings cl) cl)
    ∧ (∀ i j a b, i < j → out !! i = Some a → out !! j = Some b → size b ≤ size a)
    ∧ sum_list (size <$> out) = length (validOf statements).
Proof.
  intros Hdim.
  destruct (clusterUnderstandings_spec d statements Hdim)
    as (cs & out & Hcs & Hkeep & Hout & Hlen & Hdesc).
  assert (Hund : understandings <$> out = sortBy compareSize cs).
  { apply (described_understandings (length (validOf statements))); [| done].
    by rewrite Hlen, (Permutation_length (sortBy_Permutation _ cs)). }
  assert (Hdesc' : ∀ k cl, out !! k = Some cl →
            describes (length (validOf statements)) k (understandings cl) cl).
  { intros k cl Hk. destruct (Hdesc k cl Hk) as (c & _ & Hd).
    by replace (understandings cl) with c by (by destruct Hd as (_ & -> & _)). }
  exists cs, out. split_and!; try done.
  - intros i j a b Hij Ha Hb.
    destruct (Hdesc' i a Ha) as (_ & _ & -> & _).
    destruct (Hdesc' j b Hb) as (_ & _ & -> & _).
    apply (StronglySorted_lookup _ _ i j _ _ (sortBy_size_sorted cs)); [done | |];
      rewrite <- Hund, list_lookup_fmap; [by rewrite Ha | by rewrite Hb].
  - replace (size <$> out) with (length <$> (understandings <$> out)).
    + rewrite sum_list_length_concat, Hund, sortBy_Permutation.
      destruct Hkeep as [-> _]. done.
    + rewrite <- list_fmap_compose. apply list_eq. intros k. rewrite !list_lookup_fmap.
      destruct (out !! k) as [cl |] eqn:Hk; simpl; [| done].
      destruct (Hdesc' k cl Hk) as (_ & _ & -> & _). done.
Qed.


(** ** The order laws of the two number models *)


Section FloatOrder.
Import SpecFloat.








End FloatOrder.

(** ** The formula of [cosineSimilarity] in any arithmetic *)

Section CosineOf.
Context {N : Num}.
Implicit Types (a b : list (num N)).

Lemma fold_cosineStep_split a b (d0 m0 n0 : num N) :
  length a = length b →
  fold_left cosineStep (zip a b) (d0, m0, n0)
  = (fold_left (λ sum xy, nadd N sum (nmul N xy.1 xy.2)) (zip a b) d0,
     fold_left (λ sum xy, nadd N sum (nmul N xy.1 xy.2)) (zip a a) m0,
     fold_left (λ sum xy, nadd N sum (nmul N xy.1 xy.2)) (zip b b) n0).
Proof.
  revert b d0 m0 n0. induction a as [| x a IH]; intros [| y b] d0 m0 n0 Hlen;
    simplify_eq/=; [done |].
  by rewrite IH.
Qed.

Lemma cosineSimilarity_cosineOf a b :
  length a = length b → cosineSimilarity a b = Ok (cosineOf N a b).
Proof.
  intros Hlen. unfold cosineSimilarity. rewrite Hlen, Nat.eqb_refl. simpl.
  rewrite fold_cosineStep_split by done. unfold cosineOf, magnitudeOf, dotProductOf.
  by destruct (_ || _).
Qed.

End CosineOf.

(** In binary64 the squares of a vector of zeros add up to zero whatever the
    other vector holds, NaN and infinities included. *)
Lemma magnitudeOf_zeros (n : nat) :
  magnitudeOf Fnum (replicate n (of_Z Fnum 0)) = of_Z Fnum 0.
Proof.
  unfold magnitudeOf, dotProductOf.
  assert (Hsum : fold_left (λ sum xy, nadd Fnum sum (nmul Fnum xy.1 xy.2))
                   (zip (replicate n (of_Z Fnum 0)) (replicate n (of_Z Fnum 0)))
                   (of_Z Fnum 0) = of_Z Fnum 0).
  { induction n as [| n IH]; [done |]. cbn [replicate zip zip_with fold_left fst snd].
    replace (nadd Fnum (of_Z Fnum 0) (nmul Fnum (of_Z Fnum 0) (of_Z Fnum 0)))
      with (of_Z Fnum 0) by (by vm_compute).
    exact IH. }
  rewrite Hsum. by vm_compute.
Qed.

Lemma cosineSimilarity_zeros (n : nat) (vec : list (num Fnum)) :
  length vec = n →
  cosineSimilarity (N := Fnum) (replicate n (of_Z Fnum 0)) vec = Ok (of_Z Fnum 0)
  ∧ cosineSimilarity (N := Fnum) vec (replicate n (of_Z Fnum 0)) = Ok (of_Z Fnum 0).
Proof.
  intros Hlen. rewrite !cosineSimilarity_cosineOf by (by rewrite length_replicate).
  unfold cosineOf. rewrite magnitudeOf_zeros.
  replace (neqb Fnum (of_Z Fnum 0) (of_Z Fnum 0)) with true by (by vm_compute).
  by rewrite orb_true_r.
Qed.

(** ** The choice of the representative in any arithmetic *)

Section RepresentativeComputed.
Context {N : Num}.
Hypothesis HN : OrderLaws N.
Implicit Types (c : list (Understanding N)).




End RepresentativeComputed.

(** ** One merge, by the statements of the pair *)

Section OneMerge.
Context {N : Num}.
Implicit Types (x y : Understanding N).
Implicit Types (a b : list (Understanding N)).
Implicit Types (cs : list (list (Understanding N))).


End OneMerge.

(** ** Binary64: what rounding does to the quotient *)

(** On [Fnum] the quotient is rounded: for the vector (1, 1, 1) against
    itself the dot product is 3 and the product of the two rounded square
    roots is just below 3, so the result is one unit in the last place above
    1.  The bound of the specification is a bound of exact arithmetic. *)
Lemma cosineSimilarity_binary64_rounding :
  ∃ s, cosineSimilarity (N := Fnum) (of_Z Fnum <$> [1; 1; 1]%Z) (of_Z Fnum <$> [1; 1; 1]%Z) = Ok s
       ∧ PrimFloat.ltb (of_Z Fnum 1) s = true.
Proof. eexists. split; by vm_compute. Qed.

(** ** Why the ids must be distinct *)

(** The loops look a statement's cluster up by its id and keep the last
    match.  When [stA'] repeats the id of [stA], the pair (A, C) merges C
    into the cluster of [stA']. *)
Lemma clusterUnderstandings_repeated_id :
  ∃ out, clusterUnderstandings [stA Fnum; stA' Fnum; stC Fnum] = Ok out
         ∧ understandings <$> out = [[stA' Fnum; stC Fnum]; [stA Fnum]].
Proof. eexists. split; by vm_compute. Qed.

(** * The properties of the specification *)

(** C1: when the usable embeddings have one length and the statements have
    distinct ids, the loops evaluate the pairs of positions [i < j] and
    [clusterUnderstandings] returns clusters that hold exactly
    the statements with a usable embedding, each in exactly one cluster; two
    statements share a cluster if and only if a chain of pairs with cosine
    similarity [>= 0.75] joins them (so [x] and [z], each linked to [y],
    share one even without a direct link); and running the loop body over
    the same pairs in any other order gives the same partition. *)
Theorem clusterUnderstandings_connected_components
    (N : Num) (d : nat) (statements : list (Understanding N)) :
  let valid := validOf statements in
  let pairs := pairIndices (length valid) in
  fixedLength d statements →
  NoDup (id <$> valid) →
  (∀ i j, (i, j) ∈ pairs ↔ i < j < length valid)
  ∧ ∃ out, clusterUnderstandings statements = Ok out
    ∧ concat (understandings <$> out) ≡ₚ valid
    ∧ (∀ x cl, cl ∈ out → x ∈ understandings cl →
         x ∈ statements ∧ hasEmbedding x = true)
    ∧ (∀ x, x ∈ valid →
         ∃ k cl, out !! k = Some cl ∧ x ∈ understandings cl
           ∧ ∀ k' cl', out !! k' = Some cl' → x ∈ understandings cl' → k' = k)
    ∧ (∀ x y, x ∈ valid → y ∈ valid →
         sameCluster (understandings <$> out) x y ↔ connected valid pairs x y)
    ∧ (∀ x y z, sc (linked valid pairs) x y → sc (linked valid pairs) y z →
         sameCluster (understandings <$> out) x z)
    ∧ (∀ pairs', pairs' ≡ₚ pairs →
         ∃ cs', mergeLoop valid pairs' (initialClusters valid) = Ok cs'
           ∧ ∀ x y, sameCluster cs' x y ↔ sameCluster (understandings <$> out) x y).
Proof.
  intros valid pairs Hdim Hids. split; [intros i j; apply elem_of_pairIndices |].
  destruct (clusterUnderstandings_spec d statements Hdim)
    as (cs & out & Hcs & Hkeep & Hout & Hlen & Hdesc).
  apply described_understandings in Hdesc;
    [| by rewrite Hlen, (Permutation_length (sortBy_Permutation _ cs))].
  fold valid in Hcs, Hkeep.
  pose proof (validOf_fixedLength d statements Hdim) as Hdim'. fold valid in Hdim'.
  destruct (mergeLoop_componentsOf valid d Hdim' Hids pairs) as (cs0 & Hcs0 & Hcomp).
  { apply pairIndices_inRange. }
  assert (cs0 = cs) as -> by (unfold mergedClusters in Hcs; fold valid pairs in Hcs; congruence).
  assert (Hsort : understandings <$> out ≡ₚ cs) by (rewrite Hdesc; apply sortBy_Permutation).
  assert (Hperm : concat (understandings <$> out) ≡ₚ valid).
  { rewrite Hsort. apply Hkeep. }
  assert (Hnd : NoDup (concat (understandings <$> out))).
  { rewrite Hperm. by eapply valid_NoDup. }
  assert (Hcc : ∀ x y, x ∈ valid → y ∈ valid →
            sameCluster (understandings <$> out) x y ↔ connected valid pairs x y).
  { intros x y Hx Hy. rewrite (sameCluster_Permutation _ _ _ _ Hsort).
    by eapply componentsOf_sameCluster. }
  exists out. split_and!; try done.
  - intros x cl Hcl Hx. apply elem_of_validOf. fold valid. rewrite <- Hperm.
    apply elem_of_concat. exists (understandings cl). split; [| done].
    by apply list_elem_of_fmap_2.
  - intros x Hx. rewrite <- Hperm in Hx.
    apply elem_of_concat in Hx as (c & [k Hk]%list_elem_of_lookup & Hxc).
    apply list_lookup_fmap_Some in Hk as (cl & -> & Hcl).
    exists k, cl. split_and!; try done. intros k' cl' Hcl' Hx'.
    apply (NoDup_concat_index (understandings <$> out) k' k
             (understandings cl') (understandings cl) x); try done.
    + by rewrite list_lookup_fmap, Hcl'.
    + by rewrite list_lookup_fmap, Hcl.
  - intros x y z Hxy Hyz.
    assert (Hends : ∀ a b, sc (linked valid pairs) a b → a ∈ valid ∧ b ∈ valid).
    { intros a b [(i & j & _ & Hi & Hj & _) | (i & j & _ & Hi & Hj & _)];
        split; by eapply list_elem_of_lookup_2. }
    apply Hcc; [by apply (Hends x y) | by apply (Hends y z) |].
    transitivity y; by apply rtc_once.
  - intros pairs' Hpairs.
    destruct (mergeLoop_componentsOf valid d Hdim' Hids pairs') as (cs' & Hcs' & Hcomp').
    { intros i j Hij. rewrite Hpairs in Hij. by apply pairIndices_inRange. }
    exists cs'. split; [done |]. intros x y. split.
    + intros Hxy. destruct (sameCluster_valid valid cs' x y) as [Hx Hy]; [apply Hcomp' | done |].
      apply Hcc; try done.
      apply (componentsOf_sameCluster valid Hids pairs' cs') in Hxy; try done.
      eapply connected_mono; [| done]. intros p Hp. by rewrite <- Hpairs.
    + intros Hxy. destruct (sameCluster_valid valid (understandings <$> out) x y) as [Hx Hy]; try done.
      apply (componentsOf_sameCluster valid Hids pairs' cs'); try done.
      apply Hcc in Hxy; try done.
      eapply connected_mono; [| done]. intros p Hp. by rewrite Hpairs.
Qed.

Lemma clusterUnderstandings_connected_components_witness :
  ∃ out, clusterUnderstandings [stA Fnum; stNull Fnum; stB Fnum; stC Fnum] = Ok out
         ∧ sameCluster (understandings <$> out) (stA Fnum) (stB Fnum).
Proof.
  destruct (clusterUnderstandings_connected_components Fnum 2
              [stA Fnum; stNull Fnum; stB Fnum; stC Fnum])
    as (_ & out & Hout & _ & _ & _ & _ & Hchain & _).
  - repeat (constructor; [by vm_compute |]). constructor.
  - apply (bool_decide_unpack _). by vm_compute.
  - exists out. split; [done |]. apply (Hchain _ (stC Fnum)); [left | right].
    + exists 0, 2. split_and!; [apply elem_of_pairIndices; simpl; lia | reflexivity ..|].
      eexists _, _, _. split_and!; [reflexivity | reflexivity | by vm_compute | by vm_compute].
    + exists 1, 2. split_and!; [apply elem_of_pairIndices; simpl; lia | reflexivity ..|].
      eexists _, _, _. split_and!; [reflexivity | reflexivity | by vm_compute | by vm_compute].
Defined.

(** C5: the returned list is ordered by non-increasing member count, the
    cluster ids are 1..N in that order, and clusters of equal size stand in
    the order they had when the merging loops ended (the sort is stable, so
    the order is a function of the input order). *)
Theorem clusterUnderstandings_sorted_stable
    (N : Num) (d : nat) (statements : list (Understanding N)) :
  fixedLength d statements →
  ∃ cs out,
    mergedClusters (validOf statements) = Ok cs
    ∧ clusterUnderstandings statements = Ok out
    ∧ (∀ cl, cl ∈ out → size cl = length (understandings cl))
    ∧ (∀ i j a b, i < j → out !! i = Some a → out !! j = Some b → size b ≤ size a)
    ∧ cluster_id <$> out = seq 1 (length out)
    ∧ understandings <$> out ≡ₚ cs
    ∧ (∀ n, filter (λ c, length c = n) (understandings <$> out)
            = filter (λ c, length c = n) cs).
Proof.
  intros Hdim.
  destruct (clusterUnderstandings_facts N d statements Hdim)
    as (cs & out & Hcs & Hkeep & Hout & Hund & Hdesc & Hsorted & _).
  exists cs, out. rewrite Hund. split_and!; try done.
  - intros cl [k Hk]%list_elem_of_lookup.
    by destruct (Hdesc k cl Hk) as (_ & _ & -> & _).
  - apply list_eq. intros k. rewrite list_lookup_fmap.
    destruct (out !! k) as [cl |] eqn:Hk; simpl.
    + destruct (Hdesc k cl Hk) as (-> & _).
      symmetry. apply lookup_seq. split; [lia |]. by eapply lookup_lt_Some.
    + symmetry. apply lookup_seq_ge. by apply lookup_ge_None.
  - apply sortBy_Permutation.
  - intros n. apply sortBy_size_stable.
Qed.

Lemma clusterUnderstandings_sorted_stable_witness :
  ∃ out, clusterUnderstandings [stA Fnum; stB Fnum; stEmpty Fnum] = Ok out
         ∧ cluster_id <$> out = seq 1 (length out).
Proof.
  destruct (clusterUnderstandings_sorted_stable Fnum 2 [stA Fnum; stB Fnum; stEmpty Fnum])
    as (cs & out & _ & Hout & _ & _ & Hids & _).
  - repeat (constructor; [by vm_compute |]). constructor.
  - by exists out.
Defined.

(** C7: [cosineSimilarity] on vectors of different lengths throws the
    explicit error "Vectors must have the same length"; no value is computed
    from truncated or padded inputs. *)
Theorem cosineSimilarity_length_mismatch (N : Num) (vecA vecB : list (num N)) :
  length vecA ≠ length vecB →
  cosineSimilarity vecA vecB = Throw (JsError "Vectors must have the same length")
  ∧ ∀ s, cosineSimilarity vecA vecB ≠ Ok s.
Proof.
  intros Hne. rewrite cosineSimilarity_Throw by done. split; [done | discriminate].
Qed.

Lemma cosineSimilarity_length_mismatch_witness :
  cosineSimilarity (N := Fnum) (of_Z Fnum <$> [1; 2; 3]%Z) (of_Z Fnum <$> [1; 2]%Z)
  = Throw (JsError "Vectors must have the same length").
Proof.
  apply (cosineSimilarity_length_mismatch Fnum). simpl. lia.
Defined.

(** C8, as the code has it: the statements whose embedding is [null] or
    empty are discarded before anything else, so the call returns what it
    returns on the remaining statements alone; with usable embeddings of one
    length the clusters hold exactly the remaining statements and the
    percentages are taken over their number; with no usable embedding the
    result is the empty list.  An embedding that is present and non-empty is
    never discarded: two usable embeddings of different lengths make the
    call throw. *)
Theorem clusterUnderstandings_discards_unusable
    (N : Num) (statements : list (Understanding N)) :
  let valid := validOf statements in
  (∀ u, u ∈ valid ↔ u ∈ statements ∧ ∃ e, embedding u = Some e ∧ e ≠ [])
  ∧ clusterUnderstandings statements = clusterUnderstandings valid
  ∧ (valid = [] → clusterUnderstandings statements = Ok [])
  ∧ (∀ d, fixedLength d statements →
       ∃ out, clusterUnderstandings statements = Ok out
         ∧ concat (understandings <$> out) ≡ₚ valid
         ∧ ∀ cl, cl ∈ out →
             percentage cl
             = nmul N (ndiv N (of_nat (size cl)) (of_nat (length valid))) (of_Z N 100))
  ∧ (∀ x y ex ey, x ∈ valid → y ∈ valid →
       embedding x = Some ex → embedding y = Some ey → length ex ≠ length ey →
       clusterUnderstandings statements
       = Throw (JsError "Vectors must have the same length")).
Proof.
  intros valid. split_and!.
  - intros u. unfold valid. by rewrite elem_of_validOf, hasEmbedding_true.
  - unfold valid, clusterUnderstandings. by rewrite validOf_idemp.
  - intros Hnil. unfold clusterUnderstandings. fold valid. by rewrite Hnil.
  - intros d Hdim.
    destruct (clusterUnderstandings_spec d statements Hdim)
      as (cs & out & Hcs & [Hperm Hne] & Hout & Hlen & Hdesc).
    exists out. split_and!; [done | |].
    + rewrite (described_understandings (length valid) (sortBy compareSize cs) out);
        [| by rewrite Hlen, (Permutation_length (sortBy_Permutation _ cs)) | done].
      by rewrite sortBy_Permutation.
    + intros cl [k Hk]%list_elem_of_lookup.
      destruct (Hdesc k cl Hk) as (c & _ & _ & _ & -> & -> & _). done.
  - intros x y ex ey Hx Hy Hex Hey Hlen. unfold clusterUnderstandings. fold valid.
    destruct (Nat.eqb_spec (length valid) 0) as [Hz | _].
    { apply nil_length_inv in Hz. rewrite Hz in Hx. by apply elem_of_nil in Hx. }
    rewrite (mergedClusters_mismatch valid x y ex ey); try done.
    intros u Hu. by apply elem_of_validOf in Hu as [_ Hu].
Qed.

Lemma clusterUnderstandings_malformed_is_fatal :
  ¬ ∃ out, clusterUnderstandings [stA Fnum; stShort Fnum] = Ok out.
Proof. intros [out Hout]. vm_compute in Hout. discriminate. Qed.

(** C6: for vectors of equal length [cosineSimilarity] returns, in the
    arithmetic of the numbers at hand, the dot product divided by the
    product of the two magnitudes, and 0 without dividing when a computed
    magnitude is zero; in binary64 a vector of zeros has similarity 0 to
    every vector, never NaN; in exact arithmetic the value is the quotient
    of the specification and lies in [-1, 1].  In binary64 the bound does
    not hold: the quotient is rounded, and the vector (1, 1, 1) against
    itself gives a value above 1; squares can underflow, and [vecT1] and
    [vecB2] give a value below -4. *)
Theorem cosineSimilarity_formula_and_range :
  (∀ (N : Num) (vecA vecB : list (num N)),
     length vecA = length vecB →
     cosineSimilarity vecA vecB
     = Ok (if neqb N (magnitudeOf N vecA) (of_Z N 0)
              || neqb N (magnitudeOf N vecB) (of_Z N 0)
           then of_Z N 0
           else ndiv N (dotProductOf N vecA vecB)
                  (nmul N (magnitudeOf N vecA) (magnitudeOf N vecB))))
  ∧ (∀ (n : nat) (vec : list (num Fnum)),
       length vec = n →
       cosineSimilarity (N := Fnum) (replicate n (of_Z Fnum 0)) vec = Ok (of_Z Fnum 0)
       ∧ cosineSimilarity (N := Fnum) vec (replicate n (of_Z Fnum 0)) = Ok (of_Z Fnum 0))
  ∧ (∀ vecA vecB : list R,
       length vecA = length vecB →
       ∃ s, cosineSimilarity (N := Rnum) vecA vecB = Ok s
         ∧ (magnitude vecA ≠ 0%R → magnitude vecB ≠ 0%R →
              s = (dotProduct vecA vecB / (magnitude vecA * magnitude vecB))%R)
         ∧ (magnitude vecA = 0%R ∨ magnitude vecB = 0%R → s = 0%R)
         ∧ (Forall (λ x, x = 0%R) vecA ∨ Forall (λ x, x = 0%R) vecB → s = 0%R)
         ∧ (-1 <= s <= 1)%R)
  ∧ (∃ s, cosineSimilarity (N := Fnum) (of_Z Fnum <$> [1; 1; 1]%Z) (of_Z Fnum <$> [1; 1; 1]%Z)
          = Ok s
        ∧ nltb Fnum (of_Z Fnum 1) s = true)
  ∧ (∃ s, cosineSimilarity (N := Fnum) vecT1 vecB2 = Ok s
        ∧ nltb Fnum s (of_Z Fnum (-4)) = true).
Proof.
  split_and!.
  - intros N vecA vecB Hlen. by rewrite cosineSimilarity_cosineOf.
  - apply cosineSimilarity_zeros.
  - intros vecA vecB Hlen.
    destruct (cosineSimilarity_real vecA vecB Hlen) as (s & Hs & Hzero & Hformula & Hbounds).
    exists s. split_and!; try done; try apply Hbounds.
    intros [Hz | Hz]; apply Hzero; [left | right]; by apply magnitude_zero_vector.
  - eexists. split; by vm_compute.
  - eexists. split; by vm_compute.
Qed.

(** C2: the cluster sizes sum to the number of statements with a usable
    embedding and each percentage is the member count divided by that
    number, times 100, in the arithmetic of the numbers at hand; in exact
    arithmetic the percentages of a non-empty result sum to exactly 100. *)
Theorem clusterUnderstandings_percentages :
  (∀ (N : Num) (d : nat) (statements : list (Understanding N)),
     let total := length (validOf statements) in
     fixedLength d statements →
     ∃ out, clusterUnderstandings statements = Ok out
       ∧ sum_list (size <$> out) = total
       ∧ ∀ cl, cl ∈ out →
           size cl = length (understandings cl)
           ∧ percentage cl
             = nmul N (ndiv N (of_nat (size cl)) (of_nat total)) (of_Z N 100))
  ∧ (∀ (d : nat) (statements : list (Understanding Rnum)),
       let total := length (validOf statements) in
       fixedLength d statements →
       ∃ out, clusterUnderstandings statements = Ok out
         ∧ (∀ cl, cl ∈ out → percentage cl = (INR (size cl) / INR total * 100)%R)
         ∧ (total ≠ 0 → foldr Rplus 0%R (percentage (N := Rnum) <$> out) = 100%R)).
Proof.
  assert (Hgen : ∀ (N : Num) (d : nat) (statements : list (Understanding N)),
            fixedLength d statements →
            ∃ out, clusterUnderstandings statements = Ok out
              ∧ sum_list (size <$> out) = length (validOf statements)
              ∧ ∀ cl, cl ∈ out →
                  size cl = length (understandings cl)
                  ∧ percentage cl
                    = nmul N (ndiv N (of_nat (size cl)) (of_nat (length (validOf statements))))
                        (of_Z N 100)).
  { intros N d statements Hdim.
    destruct (clusterUnderstandings_facts N d statements Hdim)
      as (cs & out & _ & _ & Hout & _ & Hdesc & _ & Hsum).
    exists out. split_and!; try done.
    intros cl [k Hk]%list_elem_of_lookup.
    destruct (Hdesc k cl Hk) as (_ & _ & Hsz & Hp & _). split; [done |].
    by rewrite Hp, Hsz. }
  split; [exact Hgen |].
  intros d statements total Hdim.
  destruct (Hgen Rnum d statements Hdim) as (out & Hout & Hsum & Hpct).
  fold total in Hsum, Hpct.
  assert (Hpct' : ∀ cl, cl ∈ out → percentage cl = (INR (size cl) / INR total * 100)%R).
  { intros cl Hcl. destruct (Hpct cl Hcl) as [_ ->].
    unfold of_nat. simpl. by rewrite <- !INR_IZR_INZ. }
  exists out. split_and!; try done.
  intros Hpos.
  assert (Hfold : foldr Rplus 0%R (percentage (N := Rnum) <$> out)
                  = (INR (sum_list (size <$> out)) / INR total * 100)%R).
  { clear Hsum Hpct Hout. induction out as [| cl out IH].
    - simpl. unfold Rdiv. lra.
    - rewrite !fmap_cons.
      change (sum_list (size cl :: (size <$> out))) with (size cl + sum_list (size <$> out)).
      cbn [foldr]. rewrite IH by (intros cl' Hcl'; apply Hpct'; by right).
      rewrite (Hpct' cl) by left.
      rewrite plus_INR. unfold Rdiv. lra. }
  rewrite Hfold, Hsum. unfold Rdiv. rewrite Rinv_r; [lra |].
  by apply not_0_INR.
Qed.

Lemma clusterUnderstandings_percentages_witness :
  ∃ out, clusterUnderstandings [stA Rnum; stB Rnum; stC Rnum; stNull Rnum] = Ok out
         ∧ foldr Rplus 0%R (percentage (N := Rnum) <$> out) = 100%R.
Proof.
  destruct clusterUnderstandings_percentages as [_ Hreal].
  destruct (Hreal 2 [stA Rnum; stB Rnum; stC Rnum; stNull Rnum])
    as (out & Hout & _ & Hsum).
  - repeat (constructor; [by vm_compute |]). constructor.
  - exists out. split; [done |]. apply Hsum. simpl. lia.
Defined.

(** C3: [calculateConsensus] is 0 on the empty list; on a result of
    [clusterUnderstandings] it is the percentage field of the first cluster,
    which has id 1 and the largest size, read as it is; and when the result
    is a single cluster it is 100 (exact arithmetic), as it is for the
    single cluster of A, B, C in binary64. *)
Theorem calculateConsensus_largest_cluster :
  (∀ N : Num, calculateConsensus (N := N) [] = of_Z N 0)
  ∧ (∀ (N : Num) (d : nat) (statements : list (Understanding N)),
       fixedLength d statements →
       ∃ out, clusterUnderstandings statements = Ok out
         ∧ ∀ cl rest, out = cl :: rest →
             calculateConsensus out = percentage cl
             ∧ cluster_id cl = 1
             ∧ ∀ cl', cl' ∈ out → size cl' ≤ size cl)
  ∧ (∀ (d : nat) (statements : list (Understanding Rnum)),
       fixedLength d statements →
       ∃ out, clusterUnderstandings statements = Ok out
         ∧ ∀ cl, out = [cl] → calculateConsensus out = 100%R)
  ∧ (∃ cl, clusterUnderstandings [stA Fnum; stB Fnum; stC Fnum] = Ok [cl]
           ∧ calculateConsensus [cl] = of_Z Fnum 100).
Proof.
  split_and!.
  - done.
  - intros N d statements Hdim.
    destruct (clusterUnderstandings_facts N d statements Hdim)
      as (cs & out & _ & _ & Hout & _ & Hdesc & Hsorted & _).
    exists out. split; [done |].
    intros cl rest ->. split_and!; [done | |].
    + by destruct (Hdesc 0 cl) as (-> & _).
    + intros cl' [-> | [k Hk]%list_elem_of_lookup]%elem_of_cons; [done |].
      apply (Hsorted 0 (S k)); [lia | done | done].
  - intros d statements Hdim.
    destruct (clusterUnderstandings_facts Rnum d statements Hdim)
      as (cs & out & _ & [_ Hne] & Hout & Hund & Hdesc & _ & Hsum).
    exists out. split; [done |].
    intros cl ->. simpl in *.
    destruct (Hdesc 0 cl) as (_ & _ & Hsz & -> & _); [done |].
    rewrite Nat.add_0_r in Hsum. rewrite <- Hsum, Hsz. unfold of_nat. simpl.
    rewrite <- INR_IZR_INZ. unfold Rdiv. rewrite Rinv_r; [lra |].
    apply not_0_INR. intros Hz%nil_length_inv.
    apply Hne. rewrite <- (sortBy_Permutation compareSize cs), <- Hund. simpl.
    rewrite Hz. left.
  - eexists. split; by vm_compute.
Qed.

Lemma calculateConsensus_largest_cluster_witness :
  ∃ out, clusterUnderstandings [stA Rnum; stNull Rnum] = Ok out
         ∧ ∀ cl, out = [cl] → calculateConsensus out = 100%R.
Proof.
  destruct calculateConsensus_largest_cluster as (_ & _ & Hone & _).
  destruct (Hone 2 [stA Rnum; stNull Rnum]) as (out & Hout & H100).
  - repeat (constructor; [by vm_compute |]). constructor.
  - by exists out.
Defined.



(** C9: the status of a generated ADR at a consensus of exactly 70: the
    test for "Accepted" is [consensusPercentage > 70], so 70 itself (seven
    of ten statements in the largest cluster) gives "Proposed". *)
Theorem adrStatus_at_seventy :
  adrStatus (N := Rnum) 70%R = "Proposed"
  ∧ (∀ p : R, adrStatus (N := Rnum) p = "Accepted" ↔ (70 < p)%R)
  ∧ ∃ out, clusterUnderstandings (sevenOfTen Fnum) = Ok out
      ∧ calculateConsensus out = of_Z Fnum 70
      ∧ adrStatus (calculateConsensus out) = "Proposed".
Proof.
  split_and!.
  - unfold adrStatus. simpl.
    destruct (Rlt_dec 70 70) as [? | _]; [lra |].
    destruct (Rle_dec 50 70) as [_ | ?]; [done | lra].
  - intros p. unfold adrStatus. simpl.
    destruct (Rlt_dec 70 p) as [? | ?]; [done |].
    destruct (Rle_dec 50 p); split; (discriminate || lra).
  - eexists. split_and!; by vm_compute.
Qed.

(** * Further properties of the code *)

(** ** [cosineSimilarity] in exact arithmetic *)

Section CosineFacts.
Local Open Scope R_scope.

Lemma dotProduct_comm (a b : list R) : dotProduct a b = dotProduct b a.
Proof.
  revert b. induction a as [| x a IH]; intros [| y b]; simpl; try done.
  rewrite IH. lra.
Qed.

Lemma cosine_comm (a b : list R) : cosine a b = cosine b a.
Proof.
  unfold cosine.
  destruct (Req_dec_T (magnitude a) 0), (Req_dec_T (magnitude b) 0); try done.
  by rewrite dotProduct_comm, (Rmult_comm (magnitude a)).
Qed.

Lemma dotProduct_self_pos (a : list R) : Exists (λ x, x ≠ 0) a → 0 < dotProduct a a.
Proof.
  induction 1 as [x a Hx | x a _ IH]; simpl.
  - pose proof (dotProduct_self_nonneg a). nra.
  - nra.
Qed.

Lemma magnitude_pos (a : list R) : Exists (λ x, x ≠ 0) a → 0 < magnitude a.
Proof. intros Ha. apply sqrt_lt_R0. by apply dotProduct_self_pos. Qed.

Lemma cosine_self (a : list R) : Exists (λ x, x ≠ 0) a → cosine a a = 1.
Proof.
  intros Ha. pose proof (magnitude_pos a Ha) as Hpos. unfold cosine.
  destruct (Req_dec_T (magnitude a) 0) as [Hz | _]; [lra |].
  unfold magnitude in *. rewrite sqrt_sqrt by apply dotProduct_self_nonneg.
  apply Rdiv_diag. pose proof (dotProduct_self_pos a Ha). lra.
Qed.

Lemma dotProduct_scale_l (k : R) (a b : list R) :
  dotProduct (Rmult k <$> a) b = k * dotProduct a b.
Proof.
  revert b. induction a as [| x a IH]; intros [| y b]; simpl; try lra.
  rewrite IH. lra.
Qed.

Lemma magnitude_scale (k : R) (a : list R) :
  0 <= k → magnitude (Rmult k <$> a) = k * magnitude a.
Proof.
  intros Hk. unfold magnitude.
  rewrite dotProduct_scale_l, (dotProduct_comm a), dotProduct_scale_l.
  rewrite <- Rmult_assoc, sqrt_mult; [| nra | apply dotProduct_self_nonneg].
  by rewrite sqrt_square.
Qed.

End CosineFacts.

(** X1: the similarity does not depend on the order of its two arguments:
    both calls return the same value or throw the same error. *)
Theorem cosineSimilarity_symmetric (vecA vecB : list R) :
  cosineSimilarity (N := Rnum) vecA vecB = cosineSimilarity (N := Rnum) vecB vecA.
Proof.
  destruct (decide (length vecA = length vecB)) as [Hlen | Hlen].
  - rewrite (cosineSimilarity_cosine vecA vecB Hlen).
    rewrite (cosineSimilarity_cosine vecB vecA (eq_sym Hlen)).
    by rewrite cosine_comm.
  - rewrite (cosineSimilarity_Throw (N := Rnum) vecA vecB Hlen).
    by rewrite (cosineSimilarity_Throw (N := Rnum) vecB vecA (not_eq_sym Hlen)).
Qed.

(** X2: a vector with a non-zero component has similarity 1 to itself; a
    vector of zeros (the empty one too) has similarity 0 to itself. *)
Theorem cosineSimilarity_self (vec : list R) :
  (Exists (λ x, x ≠ 0%R) vec → cosineSimilarity (N := Rnum) vec vec = Ok 1%R)
  ∧ (Forall (λ x, x = 0%R) vec → cosineSimilarity (N := Rnum) vec vec = Ok 0%R).
Proof.
  split; intros Hvec.
  - rewrite (cosineSimilarity_cosine vec vec eq_refl). by rewrite cosine_self.
  - destruct (cosineSimilarity_real vec vec eq_refl) as (s & -> & Hzero & _).
    f_equal. apply Hzero. left. by apply magnitude_zero_vector.
Qed.

Lemma cosineSimilarity_self_witness :
  cosineSimilarity (N := Rnum) [0; 2]%R [0; 2]%R = Ok 1%R.
Proof.
  apply (cosineSimilarity_self [0; 2]%R).
  right. left. lra.
Defined.

(** X3: stretching one vector by a positive factor leaves the similarity
    unchanged: only the directions count. *)
Theorem cosineSimilarity_scale (k : R) (vecA vecB : list R) :
  (0 < k)%R →
  cosineSimilarity (N := Rnum) (Rmult k <$> vecA) vecB
  = cosineSimilarity (N := Rnum) vecA vecB.
Proof.
  intros Hk. destruct (decide (length vecA = length vecB)) as [Hlen | Hlen].
  - assert (Hlen' : length (Rmult k <$> vecA) = length vecB) by (by rewrite length_fmap).
    rewrite (cosineSimilarity_cosine _ vecB Hlen'), (cosineSimilarity_cosine vecA vecB Hlen).
    f_equal. unfold cosine. rewrite magnitude_scale, dotProduct_scale_l by lra.
    pose proof (sqrt_pos (dotProduct vecA vecA)) as HA. fold (magnitude vecA) in HA.
    destruct (Req_dec_T (magnitude vecA) 0) as [Hz | Hnz].
    + destruct (Req_dec_T (k * magnitude vecA) 0) as [_ | Hne]; [done |].
      exfalso. apply Hne. rewrite Hz. lra.
    + destruct (Req_dec_T (k * magnitude vecA) 0) as [Hz' | _]; [exfalso; nra |].
      destruct (Req_dec_T (magnitude vecB) 0) as [_ | HB]; [done |].
      field. split; [done | split; [done | lra]].
  - rewrite (cosineSimilarity_Throw (N := Rnum) vecA vecB Hlen).
    apply (cosineSimilarity_Throw (N := Rnum)). by rewrite length_fmap.
Qed.

Lemma cosineSimilarity_scale_witness :
  cosineSimilarity (N := Rnum) (Rmult 3 <$> [1; 2]%R) [2; 1]%R
  = cosineSimilarity (N := Rnum) [1; 2]%R [2; 1]%R.
Proof. apply (cosineSimilarity_scale 3). lra. Defined.

(** ** [clusterUnderstandings]: shapes of the result *)

Section ResultShapes.
Context {N : Num}.
Implicit Types (x y u : Understanding N).

Lemma insertSorted_same_size (c : list (Understanding N)) (cs : list (list (Understanding N))) :
  Forall (λ c', length c' ≤ length c) cs → insertSorted compareSize c cs = c :: cs.
Proof.
  intros Hcs. destruct cs as [| c' cs]; simpl; [done |].
  apply Forall_cons in Hcs as [Hc' _]. unfold compareSize.
  by destruct (Z.ltb_spec 0 (Z.of_nat (length c') - Z.of_nat (length c))) as [? | _]; [lia |].
Qed.

Lemma sortBy_singletons (valid : list (Understanding N)) :
  sortBy compareSize (initialClusters valid) = initialClusters valid.
Proof.
  unfold initialClusters. induction valid as [| u valid IH]; [done |].
  rewrite fmap_cons. simpl. rewrite IH. apply insertSorted_same_size.
  apply Forall_forall. by intros c (v & -> & _)%list_elem_of_fmap.
Qed.

(** When no evaluated pair reaches the threshold the loops change nothing. *)
Lemma mergedClusters_unlinked (valid : list (Understanding N)) (d : nat) :
  Forall (λ u, length <$> embedding u = Some d) valid →
  (∀ i j x y, i < j → valid !! i = Some x → valid !! j = Some y → ¬ similar x y) →
  mergedClusters valid = Ok (initialClusters valid).
Proof.
  intros Hdim Hnone. unfold mergedClusters, mergeLoop.
  destruct (foldM_total (processPair valid) (λ _ cs, cs = initialClusters valid)
              (pairIndices (length valid))) with (done := @nil (nat * nat))
              (acc := initialClusters valid) as (cs & -> & ->); [| done | done].
  intros _ [i j] cs Hij%elem_of_pairIndices ->.
  destruct (lookup_lt_is_Some_2 valid i) as [ui Hi]; [lia |].
  destruct (lookup_lt_is_Some_2 valid j) as [uj Hj]; [lia |].
  destruct (processPair_valid valid d Hdim (initialClusters valid) i j ui uj Hi Hj)
    as (ei & ej & s & Hei & Hej & Hs & ->).
  destruct (nleb N SIMILARITY_THRESHOLD s) eqn:Hle; [| by eexists].
  destruct (Hnone i j ui uj) as []; [lia | done | done |]. by exists ei, ej, s.
Qed.

End ResultShapes.

(** X4: when no pair of usable statements reaches the threshold, the result
    has one cluster per usable statement, in the order of the input, each of
    size 1 with that statement's text as representative. *)
Theorem clusterUnderstandings_unlinked
    (N : Num) (d : nat) (statements : list (Understanding N)) :
  let valid := validOf statements in
  fixedLength d statements →
  (∀ i j x y, i < j → valid !! i = Some x → valid !! j = Some y → ¬ similar x y) →
  ∃ out, clusterUnderstandings statements = Ok out
    ∧ understandings <$> out = (λ u, [u]) <$> valid
    ∧ ∀ k cl, out !! k = Some cl →
        ∃ u, valid !! k = Some u ∧ cluster_id cl = k + 1 ∧ size cl = 1
             ∧ representative_text cl = understanding_text u.
Proof.
  intros valid Hdim Hnone.
  destruct (clusterUnderstandings_facts N d statements Hdim)
    as (cs & out & Hcs & _ & Hout & Hund & Hdesc & _).
  fold valid in Hcs, Hdesc.
  rewrite (mergedClusters_unlinked valid d) in Hcs
    by (done || by apply validOf_fixedLength).
  injection Hcs as <-. rewrite sortBy_singletons in Hund.
  exists out. split_and!; try done.
  intros k cl Hk.
  assert (Hk' : (understandings <$> out) !! k = Some (understandings cl))
    by (by rewrite list_lookup_fmap, Hk).
  rewrite Hund in Hk'. apply list_lookup_fmap_Some in Hk' as (u & Hu & Hvk).
  destruct (Hdesc k cl Hk) as (Hid & _ & Hsz & _ & r & v & _ & Hv & Htext).
  rewrite Hu in Hsz, Hv. exists u. split_and!; try done.
  destruct r; simplify_eq/=. done.
Qed.

Lemma clusterUnderstandings_unlinked_witness :
  ∃ out, clusterUnderstandings [stA Fnum; stNull Fnum; stB Fnum] = Ok out
         ∧ understandings <$> out = [[stA Fnum]; [stB Fnum]].
Proof.
  destruct (clusterUnderstandings_unlinked Fnum 2 [stA Fnum; stNull Fnum; stB Fnum])
    as (out & Hout & Hund & _).
  - repeat (constructor; [by vm_compute |]). constructor.
  - intros i j x y Hij Hi Hj (ex & ey & s & Hex & Hey & Hs & Hle).
    destruct i as [| [| i]], j as [| [| j]]; simplify_eq/=; try lia.
    vm_compute in Hs. injection Hs as <-. vm_compute in Hle. discriminate.
  - by exists out.
Defined.

(** X5: every returned cluster has at least one member, there are at most
    as many clusters as usable statements, and the result is empty exactly
    when no statement has a usable embedding. *)
Theorem clusterUnderstandings_count
    (N : Num) (d : nat) (statements : list (Understanding N)) :
  fixedLength d statements →
  ∃ out, clusterUnderstandings statements = Ok out
    ∧ (∀ cl, cl ∈ out → 1 ≤ size cl ∧ understandings cl ≠ [])
    ∧ length out ≤ length (validOf statements)
    ∧ (out = [] ↔ validOf statements = []).
Proof.
  intros Hdim.
  destruct (clusterUnderstandings_facts N d statements Hdim)
    as (cs & out & _ & [_ Hne] & Hout & Hund & Hdesc & _ & Hsum).
  assert (Hpos : ∀ cl, cl ∈ out → 1 ≤ size cl ∧ understandings cl ≠ []).
  { intros cl Hcl.
    assert (understandings cl ≠ []) as Hcl'.
    { intros Hnil. apply Hne. rewrite <- (sortBy_Permutation compareSize cs), <- Hund, <- Hnil.
      by apply list_elem_of_fmap_2. }
    split; [| done]. apply list_elem_of_lookup in Hcl as [k Hk].
    destruct (Hdesc k cl Hk) as (_ & _ & -> & _).
    destruct (understandings cl); [done | simpl; lia]. }
  assert (Hlen : length out ≤ sum_list (size <$> out)).
  { clear Hsum Hdesc Hout Hund. induction out as [| cl out IH]; [done |].
    rewrite fmap_cons.
    change (sum_list (size cl :: (size <$> out))) with (size cl + sum_list (size <$> out)).
    destruct (Hpos cl) as [? _]; [left |].
    specialize (IH (λ cl' Hcl', Hpos cl' (list_elem_of_further _ _ _ Hcl'))). simpl. lia. }
  exists out. split_and!; try done; [lia |]. split.
  - intros ->. simpl in Hsum. by apply nil_length_inv.
  - intros Hnil. rewrite Hsum, Hnil in Hlen. destruct out; [done |]. simpl in Hlen. lia.
Qed.

Lemma clusterUnderstandings_count_witness :
  ∃ out, clusterUnderstandings [stNull Fnum; stEmpty Fnum] = Ok out ∧ out = [].
Proof.
  destruct (clusterUnderstandings_count Fnum 2 [stNull Fnum; stEmpty Fnum])
    as (out & Hout & _ & _ & Hnil).
  - repeat (constructor; [by vm_compute |]). constructor.
  - exists out. split; [done |]. by apply Hnil.
Defined.

Lemma sum_list_bound (m : nat) (l : list nat) :
  Forall (λ n, n ≤ m) l → sum_list l ≤ m * length l.
Proof. induction 1 as [| n l Hn _ IH]; simpl; lia. Qed.

(** X6: two statements that carry the same embedding, not all zeros, are
    always put in the same cluster (exact arithmetic, distinct ids). *)
Theorem clusterUnderstandings_identical_embeddings
    (d : nat) (statements : list (Understanding Rnum)) (x y : Understanding Rnum)
    (e : list R) :
  fixedLength d statements →
  NoDup (id <$> validOf statements) →
  x ∈ statements → y ∈ statements →
  embedding x = Some e → embedding y = Some e → Exists (λ c, c ≠ 0%R) e →
  ∃ out, clusterUnderstandings statements = Ok out
         ∧ sameCluster (understandings <$> out) x y.
Proof.
  intros Hdim Hids Hx Hy Hex Hey He.
  destruct (clusterUnderstandings_facts Rnum d statements Hdim)
    as (cs & out & Hcs & _ & Hout & Hund & _).
  set (valid := validOf statements) in *.
  pose proof (validOf_fixedLength d statements Hdim) as Hdim'. fold valid in Hdim'.
  destruct (mergeLoop_componentsOf valid d Hdim' Hids (pairIndices (length valid)))
    as (cs' & Hcs' & ([Hperm _] & _ & Hcomplete)); [apply pairIndices_inRange |].
  assert (cs' = cs) as -> by (unfold mergedClusters in Hcs; congruence).
  exists out. split; [done |].
  rewrite Hund, (sameCluster_Permutation _ _ _ _ (sortBy_Permutation compareSize cs)).
  assert (Hvalid : ∀ u, u ∈ statements → embedding u = Some e → u ∈ valid).
  { intros u Hu Hue. apply elem_of_validOf. split; [done |].
    apply hasEmbedding_true. exists e. split; [done |]. intros ->. inversion He. }
  assert (Hsim : ∀ u v : Understanding Rnum,
            embedding u = Some e → embedding v = Some e → similar u v).
  { intros u v Hu Hv. exists e, e, 1%R. split_and!; try done.
    - rewrite (cosineSimilarity_cosine e e eq_refl). by rewrite cosine_self.
    - unfold SIMILARITY_THRESHOLD. simpl. destruct (Rle_dec (3 / 4) 1) as [_ | Hn]; [done | lra]. }
  destruct (proj1 (list_elem_of_lookup valid x) (Hvalid x Hx Hex)) as [i Hi].
  destruct (proj1 (list_elem_of_lookup valid y) (Hvalid y Hy Hey)) as [j Hj].
  pose proof (lookup_lt_Some _ _ _ Hi). pose proof (lookup_lt_Some _ _ _ Hj).
  destruct (lt_eq_lt_dec i j) as [[Hlt | ->] | Hgt].
  - apply Hcomplete. exists i, j. split_and!; try done; [| by apply Hsim].
    apply elem_of_pairIndices. lia.
  - assert (x = y) as -> by congruence.
    assert (y ∈ concat cs) as (c & Hc & Hyc)%elem_of_concat
      by (rewrite Hperm; by eapply list_elem_of_lookup_2).
    by exists c.
  - apply sameCluster_sym, Hcomplete. exists j, i. split_and!; try done; [| by apply Hsim].
    apply elem_of_pairIndices. lia.
Qed.

Lemma clusterUnderstandings_identical_embeddings_witness :
  ∃ out, clusterUnderstandings [stA Rnum; statement Rnum "A2" (Some [1; 0]%Z)] = Ok out
         ∧ sameCluster (understandings <$> out) (stA Rnum) (statement Rnum "A2" (Some [1; 0]%Z)).
Proof.
  apply (clusterUnderstandings_identical_embeddings 2 _ _ _ [1; 0]%R).
  - repeat (constructor; [by vm_compute |]). constructor.
  - apply (bool_decide_unpack _). by vm_compute.
  - left.
  - right. left.
  - reflexivity.
  - reflexivity.
  - left. lra.
Defined.

Lemma percentages_real (d : nat) (statements : list (Understanding Rnum)) :
  fixedLength d statements →
  validOf statements ≠ [] →
  ∃ out, clusterUnderstandings statements = Ok out
    ∧ (0 < calculateConsensus out <= 100)%R
    ∧ (∀ cl, cl ∈ out →
         (0 < percentage cl <= calculateConsensus out)%R
         ∧ percentage cl = (INR (size cl) / INR (length (validOf statements)) * 100)%R)
    ∧ (100 <= calculateConsensus out * INR (length out))%R.
Proof.
  intros Hdim Hvalid.
  destruct (clusterUnderstandings_facts Rnum d statements Hdim)
    as (cs & out & _ & [_ Hne] & Hout & Hund & Hdesc & Hsorted & Hsum).
  set (total := length (validOf statements)) in *.
  assert (0 < total) as Htotal
    by (unfold total; destruct (validOf statements); [done | simpl; lia]).
  assert (Hpct : ∀ k cl, out !! k = Some cl →
            percentage cl = (INR (size cl) / INR total * 100)%R ∧ 1 ≤ size cl).
  { intros k cl Hk. destruct (Hdesc k cl Hk) as (_ & _ & Hsz & -> & _). split.
    - rewrite Hsz. unfold of_nat. simpl. by rewrite <- !INR_IZR_INZ.
    - rewrite Hsz. destruct (understandings cl) eqn:Hcl; [| simpl; lia].
      exfalso. apply Hne. rewrite <- (sortBy_Permutation compareSize cs), <- Hund, <- Hcl.
      apply list_elem_of_fmap_2. by eapply list_elem_of_lookup_2. }
  destruct out as [| h rest]; [simpl in Hsum; lia |].
  destruct (Hpct 0 h eq_refl) as [Hh Hh1].
  assert (Hmax : ∀ cl, cl ∈ h :: rest → size cl ≤ size h).
  { intros cl [-> | [k Hk]%list_elem_of_lookup]%elem_of_cons; [done |].
    by apply (Hsorted 0 (S k)); [lia | |]. }
  assert (Hbound : total ≤ size h * length (h :: rest)).
  { rewrite <- Hsum, <- (length_fmap size (h :: rest)). apply sum_list_bound. apply Forall_forall.
    intros n (cl & -> & Hcl)%list_elem_of_fmap. by apply Hmax. }
  assert (Hle : size h ≤ total).
  { rewrite <- Hsum, fmap_cons.
    change (sum_list (size h :: (size <$> rest))) with (size h + sum_list (size <$> rest)). lia. }
  assert (HT : (0 < INR total)%R) by (apply (lt_INR 0); lia).
  assert (Hscale : ∀ n : nat, (INR n / INR total * 100 = INR n * (100 / INR total))%R)
    by (intros; unfold Rdiv; lra).
  assert (Hunit : (0 < 100 / INR total)%R) by (apply Rdiv_lt_0_compat; lra).
  assert (Hfull : (INR total * (100 / INR total) = 100)%R) by (field; lra).
  exists (h :: rest). split; [done |]. simpl calculateConsensus. rewrite Hh, Hscale.
  set (unit := (100 / INR total)%R) in *.
  split_and!.
  - apply Rmult_lt_0_compat; [apply (lt_INR 0); lia | done].
  - rewrite <- Hfull. apply Rmult_le_compat_r; [lra | by apply le_INR].
  - intros cl Hcl. pose proof Hcl as [k Hk]%list_elem_of_lookup.
    destruct (Hpct k cl Hk) as [-> Hcl1]. rewrite Hscale. split; [split | done].
    + apply Rmult_lt_0_compat; [apply (lt_INR 0); lia | done].
    + apply Rmult_le_compat_r; [lra | by apply le_INR, Hmax].
  - apply le_INR in Hbound. rewrite mult_INR in Hbound.
    rewrite <- Hfull.
    replace (INR (size h) * unit * INR (length (h :: rest)))%R
      with (INR (size h) * INR (length (h :: rest)) * unit)%R by ring.
    apply Rmult_le_compat_r; lra.
Qed.

(** X7: in exact arithmetic, when some statement has a usable embedding the
    consensus lies in (0, 100], no cluster has a larger percentage, and the
    consensus times the number of clusters is at least 100. *)
Theorem calculateConsensus_bounds (d : nat) (statements : list (Understanding Rnum)) :
  fixedLength d statements →
  validOf statements ≠ [] →
  ∃ out, clusterUnderstandings statements = Ok out
    ∧ (0 < calculateConsensus out <= 100)%R
    ∧ (∀ cl, cl ∈ out → (0 < percentage cl <= calculateConsensus out)%R)
    ∧ (100 <= calculateConsensus out * INR (length out))%R.
Proof.
  intros Hdim Hvalid.
  destruct (percentages_real d statements Hdim Hvalid) as (out & Hout & Hc & Hpct & Hk).
  exists out. split_and!; try done; try apply Hc.
  intros cl Hcl. by destruct (Hpct cl Hcl).
Qed.

Lemma calculateConsensus_bounds_witness :
  ∃ out, clusterUnderstandings [stA Rnum; stB Rnum] = Ok out
         ∧ (100 <= calculateConsensus out * INR (length out))%R.
Proof.
  destruct (calculateConsensus_bounds 2 [stA Rnum; stB Rnum]) as (out & Hout & _ & _ & Hk).
  - repeat (constructor; [by vm_compute |]). constructor.
  - vm_compute. discriminate.
  - by exists out.
Defined.

(** ** The second implementation of the cosine *)

(** X8: the private [calculateCosineSimilarity] of the predictions route
    returns the value of [cosineSimilarity] whenever that call returns, and
    0 where it throws or an argument is missing; in exact arithmetic its
    result therefore always lies in [-1, 1]. *)
Theorem calculateCosineSimilarity_agrees :
  (∀ (N : Num) (vec1 vec2 : list (num N)),
     calculateCosineSimilarity (Some vec1) (Some vec2)
     = match cosineSimilarity vec1 vec2 with
       | Ok s => s
       | Throw _ => of_Z N 0
       end)
  ∧ (∀ (N : Num) (vec : option (list (num N))),
       calculateCosineSimilarity None vec = of_Z N 0
       ∧ calculateCosineSimilarity vec None = of_Z N 0)
  ∧ (∀ vec1 vec2 : option (list R),
       (-1 <= calculateCosineSimilarity (N := Rnum) vec1 vec2 <= 1)%R).
Proof.
  assert (Hagree : ∀ (N : Num) (vec1 vec2 : list (num N)),
            calculateCosineSimilarity (Some vec1) (Some vec2)
            = match cosineSimilarity vec1 vec2 with
              | Ok s => s
              | Throw _ => of_Z N 0
              end).
  { intros N vec1 vec2. unfold calculateCosineSimilarity, cosineSimilarity.
    destruct (negb (length vec1 =? length vec2)); [done |].
    destruct (fold_left cosineStep (zip vec1 vec2) _) as [[dp m1] m2].
    by destruct (_ || _). }
  split_and!; [done | by intros N [vec |] | ].
  intros [vec1 |] [vec2 |]; try (simpl; lra).
  rewrite (Hagree Rnum).
  destruct (cosineSimilarity (N := Rnum) vec1 vec2) as [s | e] eqn:Hs; simpl; [| lra].
  by apply (cosineSimilarity_real_bounds vec1 vec2).
Qed.

(** ** Status, note, label and colour *)

(** X9: in exact arithmetic the alignment note of a generated ADR appears
    exactly below 70; an "Accepted" ADR never carries it, an "Under
    Discussion" ADR always does, and a "Proposed" ADR lacks it only at
    exactly 70. *)
Theorem alignmentNote_and_status (p : R) :
  (alignmentNote (N := Rnum) p ≠ "" ↔ (p < 70)%R)
  ∧ (adrStatus (N := Rnum) p = "Accepted" → alignmentNote (N := Rnum) p = "")
  ∧ (adrStatus (N := Rnum) p = "Under Discussion" → alignmentNote (N := Rnum) p ≠ "")
  ∧ (adrStatus (N := Rnum) p = "Proposed" ∧ alignmentNote (N := Rnum) p = "" ↔ p = 70%R).
Proof.
  unfold alignmentNote, adrStatus. simpl.
  destruct (Rlt_dec p 70), (Rlt_dec 70 p), (Rle_dec 50 p);
    split_and!; try split; try done; try lra; intros; try lra; try (by destruct_and?).
Qed.

(** X10: in exact arithmetic the consensus label is "Strong Consensus"
    exactly from 70 on and "Low Consensus" exactly below 40, the colour
    always goes with the label, an "Accepted" ADR is always labelled strong
    and a low label always means "Under Discussion". *)
Theorem consensus_label_and_color (p : R) :
  (getConsensusLabel (N := Rnum) p = "Strong Consensus" ↔ (70 <= p)%R)
  ∧ (getConsensusLabel (N := Rnum) p = "Low Consensus" ↔ (p < 40)%R)
  ∧ (getConsensusColor (N := Rnum) p = "text-green-400"
     ↔ getConsensusLabel (N := Rnum) p = "Strong Consensus")
  ∧ (getConsensusColor (N := Rnum) p = "text-red-400"
     ↔ getConsensusLabel (N := Rnum) p = "Low Consensus")
  ∧ (adrStatus (N := Rnum) p = "Accepted"
     → getConsensusLabel (N := Rnum) p = "Strong Consensus")
  ∧ (getConsensusLabel (N := Rnum) p = "Low Consensus"
     → adrStatus (N := Rnum) p = "Under Discussion").
Proof.
  unfold getConsensusLabel, getConsensusColor, adrStatus. simpl.
  destruct (Rle_dec 70 p), (Rle_dec 40 p), (Rlt_dec 70 p), (Rle_dec 50 p);
    split_and!; try split; try done; try lra; intros; try lra.
Qed.

(** ** The consensus route *)

Section ConsensusRouteFacts.
Context {N : Num}.
Implicit Types (u x y : Understanding N).

Lemma isValidEmbedding_hasEmbedding u : isValidEmbedding u = hasEmbedding u.
Proof.
  unfold isValidEmbedding, hasEmbedding. destruct (embedding u) as [[| a e] |]; done.
Qed.

Lemma filter_isValidEmbedding (data : list (Understanding N)) :
  List.filter isValidEmbedding data = validOf data.
Proof.
  unfold validOf. induction data as [| u data IH]; simpl; [done |].
  by rewrite isValidEmbedding_hasEmbedding, IH.
Qed.

Lemma two_elements {A} (l : list A) (a b : A) : a ∈ l → b ∈ l → a ≠ b → 2 ≤ length l.
Proof.
  intros Ha Hb Hne. destruct l as [| c [| c' l]]; simpl; [| | lia].
  - by apply elem_of_nil in Ha.
  - apply list_elem_of_singleton in Ha, Hb. congruence.
Qed.

Lemma validOf_length_le (data : list (Understanding N)) : length (validOf data) ≤ length data.
Proof. unfold validOf. apply List.filter_length_le. Qed.

Lemma clusterUnderstandings_Throw (data : list (Understanding N)) x y ex ey :
  x ∈ validOf data → y ∈ validOf data →
  embedding x = Some ex → embedding y = Some ey → length ex ≠ length ey →
  clusterUnderstandings data = Throw (JsError "Vectors must have the same length").
Proof.
  intros Hx Hy Hex Hey Hlen. unfold clusterUnderstandings.
  destruct (Nat.eqb_spec (length (validOf data)) 0) as [Hz | _].
  { apply nil_length_inv in Hz. rewrite Hz in Hx. by apply elem_of_nil in Hx. }
  rewrite (mergedClusters_mismatch (validOf data) x y ex ey); try done.
  intros u Hu. by apply elem_of_validOf in Hu as [_ Hu].
Qed.

Lemma fixedLength_validOf (d : nat) (data : list (Understanding N)) :
  fixedLength d data → fixedLength d (validOf data).
Proof.
  unfold fixedLength. rewrite !Forall_forall.
  intros H u [Hu _]%elem_of_validOf. auto.
Qed.

End ConsensusRouteFacts.

(** X11: the consensus handler answers a length mismatch between two
    non-empty embeddings with status 500 and the text of the error thrown
    by [cosineSimilarity]; the exception does not leave the handler. *)
Theorem consensusGET_length_mismatch
    (N : Num) (mathRound : num N → num N) (typeErrorText : string)
    (projectId moduleName : string)
    (fetch : string → string → option (list (Understanding N)))
    (data : list (Understanding N)) (x y : Understanding N) (ex ey : list (num N)) :
  projectId ≠ "" → moduleName ≠ "" →
  fetch projectId moduleName = Some data →
  x ∈ data → y ∈ data →
  embedding x = Some ex → embedding y = Some ey →
  ex ≠ [] → ey ≠ [] → length ex ≠ length ey →
  consensusGET mathRound typeErrorText (Some projectId) (Some moduleName) fetch
  = JsonError 500 "Failed to analyze consensus" (Some "Vectors must have the same length").
Proof.
  intros Hp Hm Hfetch Hx Hy Hex Hey Hnx Hny Hlen.
  unfold consensusGET.
  destruct projectId as [| a p]; [done |]. destruct moduleName as [| b m]; [done |].
  simpl present. cbv iota. rewrite Hfetch.
  assert (Hvx : x ∈ validOf data).
  { apply elem_of_validOf. split; [done |]. apply hasEmbedding_true. eauto. }
  assert (Hvy : y ∈ validOf data).
  { apply elem_of_validOf. split; [done |]. apply hasEmbedding_true. eauto. }
  assert (Hxy : x ≠ y) by (intros ->; congruence).
  pose proof (two_elements _ x y Hvx Hvy Hxy) as Hvalid.
  pose proof (validOf_length_le data) as Hle.
  unfold analyzeConsensus. rewrite filter_isValidEmbedding.
  destruct (Nat.ltb_spec (length data) 2) as [? | _]; [lia |].
  destruct (Nat.ltb_spec (length (validOf data)) 2) as [? | _]; [lia |].
  rewrite (clusterUnderstandings_Throw (validOf data) x y ex ey); try done;
    by rewrite validOf_idemp.
Qed.

Lemma consensusGET_length_mismatch_witness :
  consensusGET (N := Fnum) (λ x, x) "TypeError" (Some "p1") (Some "auth")
    (λ _ _, Some [stA Fnum; stShort Fnum])
  = JsonError 500 "Failed to analyze consensus" (Some "Vectors must have the same length").
Proof.
  apply (consensusGET_length_mismatch Fnum _ _ "p1" "auth" _ [stA Fnum; stShort Fnum]
           (stA Fnum) (stShort Fnum) (of_Z Fnum <$> [1; 0]%Z) (of_Z Fnum <$> [1]%Z));
    try done; try (by vm_compute).
  - left.
  - right. left.
Defined.

(** X12: when at least two fetched statements have a usable embedding and
    those embeddings have one length, the handler answers with the module
    name and no message; the clusters are numbered 1..k, each lists as many
    developers as its size, which is at least 1; the developer entries are
    the usable statements, each once; and the sizes sum to the number of
    usable statements, which [total_understandings], the number of fetched
    rows, can only exceed. *)
Theorem consensusGET_success
    (N : Num) (mathRound : num N → num N) (typeErrorText : string)
    (projectId moduleName : string)
    (fetch : string → string → option (list (Understanding N)))
    (data : list (Understanding N)) (d : nat) :
  projectId ≠ "" → moduleName ≠ "" →
  fetch projectId moduleName = Some data →
  fixedLength d data →
  2 ≤ length (validOf data) →
  ∃ body,
    consensusGET mathRound typeErrorText (Some projectId) (Some moduleName) fetch = Json body
    ∧ message body = None
    ∧ body_module_name body = Some moduleName
    ∧ total_understandings body = length data
    ∧ data_id <$> clusters body = seq 1 (length (clusters body))
    ∧ (∀ c, c ∈ clusters body → length (developers c) = data_size c ∧ 1 ≤ data_size c)
    ∧ concat (developers <$> clusters body) ≡ₚ toDeveloper <$> validOf data
    ∧ sum_list (data_size <$> clusters body) = length (validOf data)
    ∧ length (validOf data) ≤ total_understandings body.
Proof.
  intros Hp Hm Hfetch Hdim Hvalid.
  pose proof (validOf_length_le data) as Hle.
  destruct (clusterUnderstandings_facts N d (validOf data) (fixedLength_validOf d data Hdim))
    as (cs & out & _ & [Hperm Hne] & Hout & Hund & Hdesc & _ & Hsum).
  rewrite validOf_idemp in Hperm, Hdesc, Hsum.
  unfold consensusGET.
  destruct projectId as [| a p]; [done |]. destruct moduleName as [| b m]; [done |].
  simpl present. cbv iota. rewrite Hfetch.
  unfold analyzeConsensus. rewrite filter_isValidEmbedding.
  destruct (Nat.ltb_spec (length data) 2) as [? | _]; [lia |].
  destruct (Nat.ltb_spec (length (validOf data)) 2) as [? | _]; [lia |].
  rewrite Hout. simpl. eexists. split; [done |]. simpl.
  rewrite length_fmap, <- !list_fmap_compose.
  split_and!; try done.
  - apply list_eq. intros k. rewrite list_lookup_fmap.
    destruct (out !! k) as [cl |] eqn:Hk; simpl.
    + destruct (Hdesc k cl Hk) as (-> & _).
      symmetry. apply lookup_seq. split; [lia |]. by eapply lookup_lt_Some.
    + symmetry. apply lookup_seq_ge. by apply lookup_ge_None.
  - intros c (cl & -> & [k Hk]%list_elem_of_lookup)%list_elem_of_fmap. simpl.
    destruct (Hdesc k cl Hk) as (_ & _ & -> & _). rewrite length_fmap. split; [done |].
    destruct (understandings cl) eqn:Hcl; [| simpl; lia].
    exfalso. apply Hne. rewrite <- (sortBy_Permutation compareSize cs), <- Hund, <- Hcl.
    apply list_elem_of_fmap_2. by eapply list_elem_of_lookup_2.
  - rewrite <- Hperm, <- (sortBy_Permutation compareSize cs), <- Hund.
    clear. induction out as [| cl out IH]; [done |].
    rewrite !fmap_cons. simpl. by rewrite fmap_app, IH.
Qed.

Lemma consensusGET_success_witness :
  ∃ body,
    consensusGET (N := Fnum) (λ x, x) "TypeError" (Some "p1") (Some "auth")
      (λ _ _, Some [stA Fnum; stEmpty Fnum; stB Fnum]) = Json body
    ∧ sum_list (data_size <$> clusters body) = 2
    ∧ total_understandings body = 3.
Proof.
  destruct (consensusGET_success Fnum (λ x, x) "TypeError" "p1" "auth"
              (λ _ _, Some [stA Fnum; stEmpty Fnum; stB Fnum])
              [stA Fnum; stEmpty Fnum; stB Fnum] 2)
    as (body & Hbody & _ & _ & Htotal & _ & _ & _ & Hsum & _); try done.
  - repeat (constructor; [by vm_compute |]). constructor.
  - exists body. split_and!; [done | by rewrite Hsum | by rewrite Htotal].
Defined.

Section Rounding.
Local Open Scope R_scope.

Lemma roundTenth_real (x : R) :
  roundTenth (N := Rnum) mathRoundR x = IZR (Zfloor (x * 10 + / 2)) / 10.
Proof. done. Qed.

Lemma roundTenth_close (x : R) :
  Rabs (roundTenth (N := Rnum) mathRoundR x - x) <= 1 / 20.
Proof.
  rewrite roundTenth_real. pose proof (Zfloor_bound (x * 10 + / 2)) as [Hlo Hhi].
  apply Rabs_le. lra.
Qed.

Lemma roundTenth_mono (x y : R) :
  x <= y → roundTenth (N := Rnum) mathRoundR x <= roundTenth (N := Rnum) mathRoundR y.
Proof.
  intros Hxy. rewrite !roundTenth_real.
  assert (Zfloor (x * 10 + / 2) <= Zfloor (y * 10 + / 2))%Z as Hz%IZR_le
    by (apply Zfloor_le; lra).
  lra.
Qed.

Lemma roundTenth_integer (z : Z) :
  roundTenth (N := Rnum) mathRoundR (IZR z) = IZR z.
Proof.
  rewrite roundTenth_real.
  rewrite (Zfloor_eq (z * 10)); [rewrite mult_IZR; lra |].
  rewrite mult_IZR. lra.
Qed.

End Rounding.

(** X13: in exact arithmetic, with [Math.round] rounding halves up, every
    percentage in the answer of the consensus handler is within 0.05 of size
    / usable * 100, lies between 0 and the reported consensus, which is at
    most 100 and is the reported percentage of the first cluster. *)
Theorem consensusGET_rounding
    (typeErrorText : string) (projectId moduleName : string)
    (fetch : string → string → option (list (Understanding Rnum)))
    (data : list (Understanding Rnum)) (d : nat) :
  projectId ≠ "" → moduleName ≠ "" →
  fetch projectId moduleName = Some data →
  fixedLength d data →
  2 ≤ length (validOf data) →
  ∃ body,
    consensusGET (N := Rnum) mathRoundR typeErrorText (Some projectId) (Some moduleName) fetch
    = Json body
    ∧ (∃ c rest, clusters body = c :: rest ∧ consensus_percentage body = data_percentage c)
    ∧ (consensus_percentage body <= 100)%R
    ∧ ∀ c, c ∈ clusters body →
        (0 <= data_percentage c <= consensus_percentage body)%R
        ∧ (Rabs (data_percentage c
                 - INR (data_size c) / INR (length (validOf data)) * 100) <= 1 / 20)%R.
Proof.
  intros Hp Hm Hfetch Hdim Hvalid.
  pose proof (validOf_length_le data) as Hle.
  destruct (percentages_real d (validOf data) (fixedLength_validOf d data Hdim))
    as (out & Hout & [Hc0 Hc100] & Hpct & _).
  { rewrite validOf_idemp. intros Hnil. rewrite Hnil in Hvalid. simpl in Hvalid. lia. }
  rewrite validOf_idemp in Hpct.
  unfold consensusGET.
  destruct projectId as [| a p]; [done |]. destruct moduleName as [| b m]; [done |].
  simpl present. cbv iota. rewrite Hfetch.
  unfold analyzeConsensus. rewrite filter_isValidEmbedding.
  destruct (Nat.ltb_spec (length data) 2) as [? | _]; [lia |].
  destruct (Nat.ltb_spec (length (validOf data)) 2) as [? | _]; [lia |].
  rewrite Hout. simpl. eexists. split; [done |]. simpl.
  split_and!.
  - destruct out as [| h rest]; [simpl in Hc0; lra |].
    by exists (toClusterData (N := Rnum) mathRoundR h),
         (toClusterData (N := Rnum) mathRoundR <$> rest).
  - rewrite <- (roundTenth_integer 100). by apply roundTenth_mono.
  - intros c (cl & -> & Hcl)%list_elem_of_fmap. simpl.
    destruct (Hpct cl Hcl) as [[Hlo Hhi] Heq]. split_and!.
    + rewrite <- (roundTenth_integer 0). apply roundTenth_mono. lra.
    + by apply roundTenth_mono.
    + rewrite <- Heq. apply roundTenth_close.
Qed.

Lemma consensusGET_rounding_witness :
  ∃ body,
    consensusGET (N := Rnum) mathRoundR "TypeError" (Some "p1") (Some "auth")
      (λ _ _, Some [stA Rnum; stB Rnum; stC Rnum]) = Json body
    ∧ (consensus_percentage body <= 100)%R.
Proof.
  destruct (consensusGET_rounding "TypeError" "p1" "auth"
              (λ _ _, Some [stA Rnum; stB Rnum; stC Rnum])
              [stA Rnum; stB Rnum; stC Rnum] 2)
    as (body & Hbody & _ & H100 & _); try done.
  - repeat (constructor; [by vm_compute |]). constructor.
  - vm_compute. lia.
  - by exists body.
Defined.

(** ** The report route: grouping by module *)

Section ReportFacts.
Context {N : Num}.
Implicit Types (u : Understanding N) (l g : list (Understanding N)).
Implicit Types (groups : list (string * list (Understanding N))).

Lemma uniqueNames_snoc (names : list string) (n : string) :
  uniqueNames (names ++ [n])
  = if bool_decide (n ∈ uniqueNames names) then uniqueNames names
    else uniqueNames names ++ [n].
Proof. unfold uniqueNames. by rewrite fold_left_app. Qed.

Lemma uniqueNames_elem_of (names : list string) (n : string) :
  n ∈ uniqueNames names ↔ n ∈ names.
Proof.
  induction names as [| m names IH] using rev_ind; [done |].
  rewrite uniqueNames_snoc. case_bool_decide as Hm.
  - rewrite elem_of_app, list_elem_of_singleton, IH. split; [by left |].
    intros [? | ->]; [done | by apply IH].
  - by rewrite !elem_of_app, IH.
Qed.

Lemma uniqueNames_NoDup (names : list string) : NoDup (uniqueNames names).
Proof.
  induction names as [| m names IH] using rev_ind; [constructor |].
  rewrite uniqueNames_snoc. case_bool_decide as Hm; [done |].
  apply NoDup_app. split_and!; [done | | apply NoDup_singleton].
  intros n Hn ->%list_elem_of_singleton. done.
Qed.

Lemma uniqueNames_prefix (names more : list string) :
  uniqueNames names `prefix_of` uniqueNames (names ++ more).
Proof.
  induction more as [| m more IH] using rev_ind; [by rewrite app_nil_r |].
  rewrite app_assoc, uniqueNames_snoc. case_bool_decide; [done |].
  by apply prefix_app_r.
Qed.

Lemma groupByModule_snoc l u :
  groupByModule (l ++ [u]) = pushTo (groupByModule l) (module_name u) u.
Proof. unfold groupByModule. by rewrite fold_left_app. Qed.

Lemma pushTo_total groups (key : string) u :
  sum_list ((λ kg, length kg.2) <$> pushTo groups key u)
  = S (sum_list ((λ kg, length kg.2) <$> groups)).
Proof.
  induction groups as [| [k g] groups IH]; [done |].
  cbn [pushTo]. destruct (String.eqb_spec k key) as [-> | Hne];
    rewrite !fmap_cons; cbn [sum_list_with snd id].
  - rewrite length_app. simpl. lia.
  - rewrite IH. lia.
Qed.

(** Pushing to a map that holds [F k] under each of its keys [ks]. *)
Lemma pushTo_fmap (F : string → list (Understanding N)) (ks : list string) (key : string) u :
  NoDup ks →
  pushTo ((λ k, (k, F k)) <$> ks) key u
  = if bool_decide (key ∈ ks)
    then (λ k, (k, if decide (k = key) then F k ++ [u] else F k)) <$> ks
    else ((λ k, (k, F k)) <$> ks) ++ [(key, [u])].
Proof.
  induction 1 as [| k ks Hk Hnd IH]; [done |].
  rewrite !fmap_cons. simpl. destruct (String.eqb_spec k key) as [-> | Hne].
  - rewrite bool_decide_eq_true_2 by left. rewrite decide_True by done. f_equal.
    apply list_fmap_ext. intros _ k' Hk'%list_elem_of_lookup_2.
    rewrite decide_False; [done |]. by intros ->.
  - rewrite IH. rewrite decide_False by done. case_bool_decide as Hin.
    + rewrite bool_decide_eq_true_2; [done | by right].
    + rewrite bool_decide_eq_false_2; [done |]. by intros [? | ?]%elem_of_cons.
Qed.

Lemma groupByModule_closed_form l :
  groupByModule l
  = (λ m, (m, filter (λ u, module_name u = m) l)) <$> uniqueNames (module_name <$> l).
Proof.
  induction l as [| u l IH] using rev_ind; [done |].
  rewrite groupByModule_snoc, IH, fmap_app.
  change (module_name <$> [u]) with [module_name u]. rewrite uniqueNames_snoc.
  rewrite pushTo_fmap by apply uniqueNames_NoDup. simpl.
  case_bool_decide as Hin.
  - apply list_fmap_ext. intros _ k _. f_equal. rewrite filter_app.
    case_decide as Hk.
    + by rewrite (filter_cons_True _ u) by done.
    + rewrite (filter_cons_False _ u) by done. by rewrite app_nil_r.
  - rewrite fmap_app. f_equal.
    + apply list_fmap_ext. intros _ k Hk%list_elem_of_lookup_2. f_equal. rewrite filter_app.
      rewrite (filter_cons_False _ u); [by rewrite app_nil_r |].
      intros Heq. apply Hin. by rewrite Heq.
    + simpl. do 2 f_equal. rewrite filter_app, (filter_cons_True _ u) by done. simpl.
      replace (filter (λ v, module_name v = module_name u) l) with (@nil (Understanding N));
        [done |].
      symmetry. rewrite uniqueNames_elem_of in Hin. clear IH.
      induction l as [| v l IHl]; [done |].
      rewrite filter_cons_False.
      * apply IHl. intros Hv. apply Hin. rewrite fmap_cons. by right.
      * intros Hv. apply Hin. rewrite fmap_cons, Hv. by left.
Qed.

Lemma groupByModule_total l :
  sum_list ((λ kg, length kg.2) <$> groupByModule l) = length l.
Proof.
  induction l as [| u l IH] using rev_ind; [done |].
  rewrite groupByModule_snoc, pushTo_total, IH, length_app. simpl. lia.
Qed.

Lemma uniqueNames_NoDup_id (names : list string) : NoDup names → uniqueNames names = names.
Proof.
  induction names as [| n names IH] using rev_ind; [done |].
  intros (Hnd & Hn & _)%NoDup_app. rewrite uniqueNames_snoc, IH by done.
  rewrite bool_decide_eq_false_2; [done |].
  intros Hin. apply (Hn n Hin). left.
Qed.

(** The filters in front of [clusterUnderstandings] keep every statement
    that [clusterUnderstandings] keeps. *)
Lemma validOf_filter (keep : Understanding N → bool) l :
  (∀ u, hasEmbedding u = true → keep u = true) →
  validOf (List.filter keep l) = validOf l.
Proof.
  intros Hkeep. unfold validOf. induction l as [| u l IH]; simpl; [done |].
  destruct (keep u) eqn:Hu; simpl.
  - by rewrite IH.
  - rewrite IH. destruct (hasEmbedding u) eqn:Hv; [| done].
    apply Hkeep in Hv. congruence.
Qed.

Lemma clusterUnderstandings_validOf l l' :
  validOf l = validOf l' → clusterUnderstandings l = clusterUnderstandings l'.
Proof. unfold clusterUnderstandings. by intros ->. Qed.

Lemma hasEmbedding_is_Some u :
  hasEmbedding u = true → bool_decide (is_Some (embedding u)) = true.
Proof.
  unfold hasEmbedding. destruct (embedding u); [| done].
  intros _. by apply bool_decide_eq_true_2.
Qed.

Lemma fixedLength_filter d (P : Understanding N → Prop) `{∀ u, Decision (P u)} l :
  fixedLength d l → fixedLength d (filter P l).
Proof.
  unfold fixedLength. rewrite !Forall_forall.
  intros Hl u [_ Hu]%list_elem_of_filter. auto.
Qed.

(** What one call of the [forEach] callback pushes. *)
Lemma analyzeModule_Ok d (moduleName : string) g :
  fixedLength d g →
  ∃ a, analyzeModule moduleName g = Ok a
    ∧ module a = moduleName
    ∧ understandingCount a = length g
    ∧ contributors a = uniqueNames (developer_name <$> g)
    ∧ (length (List.filter (λ u, bool_decide (is_Some (embedding u))) g) < 2 →
         consensus a = of_Z N 100 ∧ analysis_clusters a = [])
    ∧ (2 ≤ length (List.filter (λ u, bool_decide (is_Some (embedding u))) g) →
         clusterUnderstandings g = Ok (analysis_clusters a)
         ∧ consensus a = calculateConsensus (analysis_clusters a)).
Proof.
  intros Hdim. unfold analyzeModule.
  set (embedded := List.filter _ g).
  destruct (Nat.leb_spec 2 (length embedded)) as [Hle | Hlt].
  - assert (Hsame : clusterUnderstandings embedded = clusterUnderstandings g).
    { apply clusterUnderstandings_validOf, validOf_filter, hasEmbedding_is_Some. }
    destruct (clusterUnderstandings_facts N d g Hdim) as (_ & out & _ & _ & Hout & _).
    rewrite Hsame, Hout. simpl. eexists. split; [done |]. simpl.
    split_and!; try done. lia.
  - eexists. split; [done |]. simpl. split_and!; try done. lia.
Qed.

Lemma analyzeModules_Ok groups :
  (∀ k g, (k, g) ∈ groups → ∃ a, analyzeModule k g = Ok a) →
  ∃ out, analyzeModules groups = Ok out
    ∧ Forall2 (λ kg a, analyzeModule kg.1 kg.2 = Ok a) groups out.
Proof.
  induction groups as [| [k g] groups IH]; intros Hall; simpl.
  - exists []. by split.
  - destruct (Hall k g) as [a Ha]; [left |].
    destruct IH as (out & Hout & Hrel).
    { intros k' g' Hin. apply Hall. by right. }
    rewrite Ha, Hout. simpl. exists (a :: out). split; [done |]. by constructor.
Qed.

End ReportFacts.

(** X14: grouping by module is a partition of the fetched rows: the keys
    are the distinct module names in the order of their first occurrence,
    every group holds exactly the rows of its module, in the order of the
    rows, none is empty, and the group sizes add up to the number of rows. *)
Theorem groupByModule_partition (N : Num) (allUnderstandings : list (Understanding N)) :
  (groupByModule allUnderstandings).*1 = uniqueNames (module_name <$> allUnderstandings)
  ∧ NoDup (groupByModule allUnderstandings).*1
  ∧ (∀ k g, (k, g) ∈ groupByModule allUnderstandings →
       g = filter (λ u, module_name u = k) allUnderstandings ∧ g ≠ [])
  ∧ sum_list ((λ kg, length kg.2) <$> groupByModule allUnderstandings)
    = length allUnderstandings.
Proof.
  assert (Hkeys : (groupByModule allUnderstandings).*1
                  = uniqueNames (module_name <$> allUnderstandings)).
  { rewrite groupByModule_closed_form, <- list_fmap_compose. apply list_fmap_id. }
  split_and!.
  - done.
  - rewrite Hkeys. apply uniqueNames_NoDup.
  - intros k g Hin. rewrite groupByModule_closed_form in Hin.
    apply list_elem_of_fmap in Hin as (m & [= -> ->] & Hm). split; [done |].
    apply uniqueNames_elem_of, list_elem_of_fmap in Hm as (u & -> & Hu).
    intros Hnil. apply (filter_nil_not_elem_of _ _ u Hnil); done.
  - apply groupByModule_total.
Qed.

(** X15: the contributors of a module ([Array.from(new Set(names))]) are
    the developer names without repetition, each at the place of its first
    occurrence: the result has no duplicate, the same elements as the input,
    grows only at its end when names are appended, and is the input itself
    when that has no duplicate. *)
Theorem uniqueNames_first_occurrences (names : list string) :
  NoDup (uniqueNames names)
  ∧ (∀ n, n ∈ uniqueNames names ↔ n ∈ names)
  ∧ (∀ more, uniqueNames names `prefix_of` uniqueNames (names ++ more))
  ∧ (NoDup names → uniqueNames names = names).
Proof.
  split_and!.
  - apply uniqueNames_NoDup.
  - apply uniqueNames_elem_of.
  - apply uniqueNames_prefix.
  - apply uniqueNames_NoDup_id.
Qed.

(** X16: when the usable embeddings of the project have one length, the
    report route analyses every module without an exception, one entry per
    module in the order of first occurrence; an entry counts the rows of its
    module (at least one, and the counts add up to the number of rows) and
    lists their developers once each; with fewer than two rows carrying an
    embedding the entry has consensus 100 and no cluster, otherwise its
    clusters are those of [clusterUnderstandings] on the rows of the module
    and its consensus is that of [calculateConsensus]. *)
Theorem moduleAnalysis_shape
    (N : Num) (d : nat) (allUnderstandings : list (Understanding N)) :
  fixedLength d allUnderstandings →
  ∃ out,
    moduleAnalysis allUnderstandings = Ok out
    ∧ module <$> out = uniqueNames (module_name <$> allUnderstandings)
    ∧ sum_list (understandingCount <$> out) = length allUnderstandings
    ∧ ∀ a, a ∈ out →
        let rows := filter (λ u, module_name u = module a) allUnderstandings in
        let embedded := List.filter (λ u, bool_decide (is_Some (embedding u))) rows in
        understandingCount a = length rows
        ∧ 1 ≤ understandingCount a
        ∧ contributors a = uniqueNames (developer_name <$> rows)
        ∧ (length embedded < 2 → consensus a = of_Z N 100 ∧ analysis_clusters a = [])
        ∧ (2 ≤ length embedded →
             clusterUnderstandings rows = Ok (analysis_clusters a)
             ∧ consensus a = calculateConsensus (analysis_clusters a)).
Proof.
  intros Hdim. unfold moduleAnalysis.
  pose proof (groupByModule_closed_form allUnderstandings) as Hform.
  pose proof (groupByModule_total allUnderstandings) as Htotal.
  set (groups := groupByModule allUnderstandings) in *.
  assert (Hgroups : ∀ k g, (k, g) ∈ groups →
            g = filter (λ u, module_name u = k) allUnderstandings ∧ g ≠ []).
  { intros k g Hin. rewrite Hform in Hin.
    apply list_elem_of_fmap in Hin as (m & [= -> ->] & Hm). split; [done |].
    apply uniqueNames_elem_of, list_elem_of_fmap in Hm as (u & -> & Hu).
    intros Hnil. apply (filter_nil_not_elem_of _ _ u Hnil); done. }
  destruct (analyzeModules_Ok groups) as (out & Hout & Hrel).
  { intros k g [-> _]%Hgroups.
    destruct (analyzeModule_Ok d k _
                (fixedLength_filter d (λ u, module_name u = k) _ Hdim)) as (a & Ha & _).
    by exists a. }
  assert (Hfacts : Forall2 (λ kg a,
            kg.2 = filter (λ u, module_name u = kg.1) allUnderstandings ∧ kg.2 ≠ []
            ∧ analyzeModule kg.1 kg.2 = Ok a) groups out).
  { clear Hout Hform Htotal. induction Hrel as [| [k g] a groups out Ha Hrel IH];
      constructor.
    - destruct (Hgroups k g) as [? ?]; [left |]. done.
    - apply IH. intros k' g' Hin. apply Hgroups. by right. }
  clear Hrel Hgroups.
  assert (Hone : ∀ k g a,
            g = filter (λ u, module_name u = k) allUnderstandings →
            analyzeModule k g = Ok a →
            module a = k ∧ understandingCount a = length g).
  { intros k g a -> Ha.
    destruct (analyzeModule_Ok d k _ (fixedLength_filter d (λ u, module_name u = k) _ Hdim))
      as (a' & Ha' & ? & ? & _).
    assert (a' = a) as -> by congruence. done. }
  exists out. split_and!.
  - done.
  - transitivity (groups.*1).
    + clear Hout Hform Htotal.
      induction Hfacts as [| [k g] a groups out (Hg & _ & Ha) _ IH]; [done |].
      rewrite !fmap_cons, IH. f_equal. by destruct (Hone k g a Hg Ha).
    + rewrite Hform, <- list_fmap_compose. apply list_fmap_id.
  - rewrite <- Htotal. clear Hout Hform Htotal.
    induction Hfacts as [| [k g] a groups out (Hg & _ & Ha) _ IH]; [done |].
    rewrite !fmap_cons. cbn [sum_list_with id snd]. rewrite IH. f_equal.
    by destruct (Hone k g a Hg Ha).
  - intros a Ha. apply list_elem_of_lookup in Ha as [i Hi].
    destruct (Forall2_lookup_r _ _ _ _ _ Hfacts Hi) as ([k g] & _ & Hg & Hne & Hk).
    simpl in Hg, Hne, Hk. subst g.
    destruct (analyzeModule_Ok d k _ (fixedLength_filter d (λ u, module_name u = k) _ Hdim))
      as (a' & Ha' & Hmod & Hcount & Hnames & Hfew & Hmany).
    assert (a' = a) as -> by congruence. rewrite Hmod. simpl.
    split_and!; try done.
    rewrite Hcount. destruct (filter _ allUnderstandings); [done | simpl; lia].
Qed.

Lemma moduleAnalysis_shape_witness :
  ∃ out,
    moduleAnalysis
      [statementOf Fnum "A" "auth" "ann" (Some [1; 0]%Z);
       statementOf Fnum "B" "billing" "bob" None;
       statementOf Fnum "C" "auth" "ann" (Some [4; 3]%Z);
       statementOf Fnum "D" "auth" "cy" (Some [7; 24]%Z)] = Ok out
    ∧ module <$> out = ["auth"; "billing"].
Proof.
  destruct (moduleAnalysis_shape Fnum 2
              [statementOf Fnum "A" "auth" "ann" (Some [1; 0]%Z);
               statementOf Fnum "B" "billing" "bob" None;
               statementOf Fnum "C" "auth" "ann" (Some [4; 3]%Z);
               statementOf Fnum "D" "auth" "cy" (Some [7; 24]%Z)])
    as (out & Hout & Hmods & _).
  - repeat (constructor; [by vm_compute |]). constructor.
  - exists out. split; [done |]. rewrite Hmods. by vm_compute.
Defined.

(** X17: the filters that the two routes put in front of
    [clusterUnderstandings] change nothing: thrown or returned, the result
    on the filtered rows is the result on all rows. *)
Theorem clusterUnderstandings_prefilter (N : Num) (rows : list (Understanding N)) :
  clusterUnderstandings (List.filter isValidEmbedding rows) = clusterUnderstandings rows
  ∧ clusterUnderstandings (List.filter (λ u, bool_decide (is_Some (embedding u))) rows)
    = clusterUnderstandings rows.
Proof.
  split; apply clusterUnderstandings_validOf, validOf_filter.
  - intros u Hu. by rewrite isValidEmbedding_hasEmbedding.
  - apply hasEmbedding_is_Some.
Qed.

(** X18: on rows of which fewer than two carry an embedding the two routes
    disagree: the consensus route answers with a message, consensus 0 and
    no cluster, the report route records consensus 100 and no cluster; and
    when two or more rows carry an embedding but every one is the empty
    array, the report route records consensus 0. *)
Theorem consensus_without_embeddings
    (N : Num) (mathRound : num N → num N) (moduleName : string)
    (rows : list (Understanding N)) :
  let embedded := List.filter (λ u, bool_decide (is_Some (embedding u))) rows in
  (length embedded < 2 →
     (∃ body, analyzeConsensus mathRound moduleName rows = Ok (Json body)
        ∧ is_Some (message body)
        ∧ consensus_percentage body = of_Z N 0
        ∧ clusters body = [])
     ∧ (∃ a, analyzeModule moduleName rows = Ok a
          ∧ consensus a = of_Z N 100
          ∧ analysis_clusters a = []))
  ∧ (2 ≤ length embedded → validOf rows = [] →
     ∃ a, analyzeModule moduleName rows = Ok a
       ∧ consensus a = of_Z N 0
       ∧ analysis_clusters a = []).
Proof.
  intros embedded. split.
  - intros Hfew. split.
    + assert (Hvalid : length (validOf rows) < 2).
      { rewrite <- (validOf_filter (λ u, bool_decide (is_Some (embedding u))) rows)
          by apply hasEmbedding_is_Some.
        fold embedded. pose proof (validOf_length_le embedded). lia. }
      unfold analyzeConsensus. rewrite filter_isValidEmbedding.
      destruct (length rows <? 2); [by eexists |].
      destruct (Nat.ltb_spec (length (validOf rows)) 2) as [_ | ?]; [| lia].
      by eexists.
    + unfold analyzeModule. fold embedded.
      destruct (Nat.leb_spec 2 (length embedded)) as [? | _]; [lia |]. by eexists.
  - intros Hmany Hnone. unfold analyzeModule. fold embedded.
    destruct (Nat.leb_spec 2 (length embedded)) as [_ | ?]; [| lia].
    unfold clusterUnderstandings, embedded.
    rewrite (validOf_filter _ rows) by apply hasEmbedding_is_Some.
    rewrite Hnone. simpl. by eexists.
Qed.

Lemma consensus_without_embeddings_witness :
  (∃ body, analyzeConsensus (N := Fnum) (λ x, x) "auth" [stA Fnum; stNull Fnum]
           = Ok (Json body)
     ∧ consensus_percentage body = of_Z Fnum 0)
  ∧ (∃ a, analyzeModule "auth" [stA Fnum; stNull Fnum] = Ok a
       ∧ consensus a = of_Z Fnum 100)
  ∧ (∃ a, analyzeModule "auth" [stEmpty Fnum; stNull Fnum; stEmpty Fnum] = Ok a
       ∧ consensus a = of_Z Fnum 0).
Proof.
  destruct (consensus_without_embeddings Fnum (λ x, x) "auth" [stA Fnum; stNull Fnum])
    as [Hfew _].
  destruct Hfew as [(body & Hbody & _ & Hzero & _) (a & Ha & Hhundred & _)];
    [vm_compute; lia |].
  destruct (consensus_without_embeddings Fnum (λ x, x) "auth"
              [stEmpty Fnum; stNull Fnum; stEmpty Fnum]) as [_ Hmany].
  destruct Hmany as (a' & Ha' & Hzero' & _); [vm_compute; lia | done |].
  split_and!; [by exists body | by exists a | by exists a'].
Defined.

(** X19: the status that the ADR route derives from a clustering, in exact
    arithmetic, for statements with at least one usable embedding that all
    have one length: with [s] the size of the largest cluster and [t] the
    number of usable statements, the status is "Accepted" exactly when
    [s] is more than seven tenths of [t], "Under Discussion" exactly when
    it is less than half, and "Proposed" in between, both ends included. *)
Theorem adrStatus_of_clustering (d : nat) (statements : list (Understanding Rnum)) :
  fixedLength d statements →
  validOf statements ≠ [] →
  ∃ largest rest,
    clusterUnderstandings statements = Ok (largest :: rest)
    ∧ (adrStatus (calculateConsensus (largest :: rest)) = "Accepted"
       ↔ 7 * length (validOf statements) < 10 * size largest)
    ∧ (adrStatus (calculateConsensus (largest :: rest)) = "Proposed"
       ↔ length (validOf statements) ≤ 2 * size largest
         ∧ 10 * size largest ≤ 7 * length (validOf statements))
    ∧ (adrStatus (calculateConsensus (largest :: rest)) = "Under Discussion"
       ↔ 2 * size largest < length (validOf statements)).
Proof.
  intros Hdim Hvalid.
  destruct (percentages_real d statements Hdim Hvalid) as (out & Hout & _ & Hpct & Hlen).
  destruct out as [| largest rest]; [simpl in Hlen; lra |].
  exists largest, rest. split; [done |].
  destruct (Hpct largest) as [_ Hp]; [left |].
  set (t := length (validOf statements)) in *. set (s := size largest) in *.
  assert (0 < t) as Ht by (unfold t; destruct (validOf statements); [done | simpl; lia]).
  assert (0 < INR t)%R as HT by (by apply (lt_INR 0)).
  assert (Hmul : (percentage largest * INR t = 100 * INR s)%R) by (rewrite Hp; field; lra).
  assert (H70 : 7 * t < 10 * s ↔ (70 < percentage largest)%R).
  { split; intros H.
    - apply lt_INR in H. rewrite !mult_INR in H. simpl in H. nra.
    - apply INR_lt. rewrite !mult_INR. simpl. nra. }
  assert (H50 : t ≤ 2 * s ↔ (50 <= percentage largest)%R).
  { split; intros H.
    - apply le_INR in H. rewrite !mult_INR in H. simpl in H. nra.
    - apply INR_le. rewrite !mult_INR. simpl. nra. }
  unfold adrStatus, calculateConsensus. simpl.
  rewrite (Nat.le_ngt (10 * s)), (Nat.lt_nge (2 * s)), H70, H50.
  destruct (Rlt_dec 70 (percentage largest)) as [Hacc | Hacc];
    destruct (Rle_dec 50 (percentage largest)) as [Hprop | Hprop];
    intuition (try done; try lra).
Qed.

Lemma adrStatus_of_clustering_witness :
  ∃ largest rest,
    clusterUnderstandings [stA Rnum; stB Rnum; stC Rnum] = Ok (largest :: rest)
    ∧ (adrStatus (calculateConsensus (largest :: rest)) = "Proposed"
       ↔ 3 ≤ 2 * size largest ∧ 10 * size largest ≤ 7 * 3).
Proof.
  destruct (adrStatus_of_clustering 2 [stA Rnum; stB Rnum; stC Rnum])
    as (largest & rest & Hout & _ & Hprop & _).
  - repeat (constructor; [by vm_compute |]). constructor.
  - done.
  - by exists largest, rest.
Defined.
